(** * find-projects.py: recent projects of JetBrains products

    A shallow embedding of [src/find-projects.py] and the properties of its
    discovery-and-resolution pipeline.

    Conventions of the embedding.
    - A Python [str] is a Rocq [string]; a character [ascii] stands for the
      code point of the same number (0..255).  On that range the regular
      expression class [\d] is exactly ['0'..'9'] and [str.isspace] is the
      set listed in [is_space].
    - A raised exception is a value of [exn]; code that may raise lives in
      the monad [result].
    - Everything the script asks of its surroundings (environment variables,
      home directories, directory listings, file tests, file contents, the
      XML parser, the traceback printer) is a field of [World]. *)

From Stdlib Require Import ZArith Lia Ascii.
From stdpp Require Import base option list strings gmap sets.

Local Open Scope Z_scope.

(** ** Exceptions and the error monad *)

Inductive exn : Type :=
| TypeError (msg : string)
| ValueError (msg : string)
| KeyError (key : string)
| RuntimeError (msg : string)
| ParseError (msg : string)
| FileNotFoundError (msg : string)
| PermissionError (msg : string)
| IsADirectoryError (msg : string)
| NotADirectoryError (msg : string)
| UnicodeDecodeError (msg : string)
| OSError (msg : string).

(** [str(exc)].  A [KeyError] prints the [repr] of its key, which for the
    keys of this program (['value'], ['key']) is the key in single quotes. *)
Definition exn_str (e : exn) : string :=
  match e with
  | KeyError k => "'" +:+ k +:+ "'"
  | TypeError m | ValueError m | RuntimeError m | ParseError m
  | FileNotFoundError m | PermissionError m | IsADirectoryError m
  | NotADirectoryError m | UnicodeDecodeError m | OSError m => m
  end.

Inductive result (A : Type) : Type :=
| Ok (a : A)
| Raise (e : exn).
Arguments Ok {A} a.
Arguments Raise {A} e.

Global Instance result_ret : MRet result := λ A a, Ok a.
Global Instance result_bind : MBind result := λ A B f m,
  match m with
  | Ok a => f a
  | Raise e => Raise e
  end.

(** [[f(x) for x in l]] where [f] may raise: the first exception wins. *)
Fixpoint traverse {A B : Type} (f : A → result B) (l : list A) : result (list B) :=
  match l with
  | [] => Ok []
  | x :: l' => y ← f x; ys ← traverse f l'; Ok (y :: ys)
  end.

(** ** Strings *)

Definition is_digit (c : ascii) : bool :=
  let n := Ascii.N_of_ascii c in (48 <=? n)%N && (n <=? 57)%N.

(** [str.isspace] on code points below 256. *)
Definition is_space (c : ascii) : bool :=
  let n := Ascii.N_of_ascii c in
  ((9 <=? n)%N && (n <=? 13)%N) || ((28 <=? n)%N && (n <=? 32)%N)
  || (n =? 133)%N || (n =? 160)%N.

Fixpoint lstrip (s : string) : string :=
  match s with
  | EmptyString => EmptyString
  | String c s' => if is_space c then lstrip s' else s
  end.

Fixpoint rstrip (s : string) : string :=
  match s with
  | EmptyString => EmptyString
  | String c s' =>
      match rstrip s' with
      | EmptyString => if is_space c then EmptyString else String c EmptyString
      | t => String c t
      end
  end.

(** [s.strip()] *)
Definition strip (s : string) : string := rstrip (lstrip s).

Fixpoint starts_with (p s : string) : bool :=
  match p, s with
  | EmptyString, _ => true
  | String a p', String b s' => if decide (a = b) then starts_with p' s' else false
  | String _ _, EmptyString => false
  end.

(** [s.replace(old, new)] for a non-empty [old]: occurrences are replaced
    from the left and do not overlap.  [skip] counts the characters of an
    occurrence that was just replaced and are still to be dropped. *)
Fixpoint replace_from (old new : string) (skip : nat) (s : string) : string :=
  match s with
  | EmptyString => EmptyString
  | String c s' =>
      match skip with
      | S n => replace_from old new n s'
      | O =>
          if starts_with old s
          then new +:+ replace_from old new (Nat.pred (String.length old)) s'
          else String c (replace_from old new O s')
      end
  end.

Definition str_replace (s old new : string) : string := replace_from old new O s.

(** [s.split(c)] for a separator of one character. *)
Fixpoint str_split (c : ascii) (s : string) : list string :=
  match s with
  | EmptyString => [EmptyString]
  | String a s' =>
      if decide (a = c) then EmptyString :: str_split c s'
      else match str_split c s' with
           | [] => [String a EmptyString]
           | w :: ws => String a w :: ws
           end
  end.

(** [sep.join(l)] *)
Fixpoint str_join (sep : string) (l : list string) : string :=
  match l with
  | [] => EmptyString
  | [x] => x
  | x :: l' => x +:+ sep +:+ str_join sep l'
  end.

Definition digit_val (c : ascii) : Z := Z.of_N (Ascii.N_of_ascii c) - 48.

Fixpoint all_digits (s : string) : bool :=
  match s with
  | EmptyString => true
  | String c s' => is_digit c && all_digits s'
  end.

Fixpoint digits_value (acc : Z) (s : string) : Z :=
  match s with
  | EmptyString => acc
  | String c s' => digits_value (10 * acc + digit_val c) s'
  end.

(** [int(s)] on the literals this program passes to it: a non-empty run of
    decimal digits.  (The signs, blanks and underscores [int] also accepts
    never reach it here, see [product_version_total].) *)
Definition py_int (s : string) : result Z :=
  match s with
  | EmptyString => Raise (ValueError "invalid literal for int() with base 10: ''")
  | _ =>
      if all_digits s then Ok (digits_value 0 s)
      else Raise (ValueError ("invalid literal for int() with base 10: '" +:+ s +:+ "'"))
  end.

(** ** Regular expressions: the fragment of [re] the script uses *)

Inductive regex : Type :=
| Digit                                  (* \d *)
| Chr (c : ascii)                        (* an escaped literal such as \. *)
| Cat (r1 r2 : regex)                    (* r1r2 *)
| Rep (r : regex) (lo hi : nat).         (* r{lo,hi}, greedy *)

Section Matcher.
Context {A : Type}.

(** Greedy bounded repetition by backtracking: one more iteration is tried
    first, stopping here is the alternative. *)
Definition rep_greedy (m : string → (string → option A) → option A) :=
  fix go (lo hi : nat) (s : string) (k : string → option A) : option A :=
    match hi with
    | O => match lo with O => k s | S _ => None end
    | S hi' =>
        match m s (λ s', go (Nat.pred lo) hi' s' k) with
        | Some x => Some x
        | None => match lo with O => k s | S _ => None end
        end
    end.

(** [re_match r s k]: match [r] at the start of [s] and hand the rest of the
    string to the continuation [k]; the first success in the matcher's
    priority order is returned. *)
Fixpoint re_match (r : regex) (s : string) (k : string → option A) : option A :=
  match r with
  | Digit =>
      match s with
      | String c s' => if is_digit c then k s' else None
      | EmptyString => None
      end
  | Chr c =>
      match s with
      | String a s' => if decide (a = c) then k s' else None
      | EmptyString => None
      end
  | Cat r1 r2 => re_match r1 s (λ s', re_match r2 s' k)
  | Rep r' lo hi => rep_greedy (re_match r') lo hi s k
  end.
End Matcher.

(** The first [n] characters of [s]. *)
Fixpoint str_take (n : nat) (s : string) : string :=
  match n, s with
  | S n', String c s' => String c (str_take n' s')
  | _, _ => EmptyString
  end.

(** [re.search(r, s)]: the match at the leftmost position that has one;
    the result is [m.group(0)]. *)
Fixpoint re_search (r : regex) (s : string) : option string :=
  match re_match r s Some with
  | Some rest => Some (str_take (String.length s - String.length rest) s)
  | None =>
      match s with
      | EmptyString => None
      | String _ s' => re_search r s'
      end
  end.

(** [r'\d{1,4}\.\d{1,2}'] *)
Definition version_re : regex :=
  Cat (Rep Digit 1 4) (Cat (Chr ".") (Rep Digit 1 2)).

(** ** pathlib.PurePosixPath *)

(** [root] is [""], ["/"] or ["//"]; [parts] are the components after the
    root. *)
Record PosixPath : Type := mkPath { root : string; parts : list string }.

Global Instance PosixPath_eq_dec : EqDecision PosixPath.
Proof. solve_decision. Defined.

Global Instance PosixPath_countable : Countable PosixPath :=
  inj_countable' (λ p, (root p, parts p)) (λ rp, mkPath rp.1 rp.2)
    (λ p, match p with mkPath _ _ => eq_refl end).

Fixpoint leading_slashes (s : string) : nat :=
  match s with
  | String "/" s' => S (leading_slashes s')
  | _ => O
  end.

(** [splitroot]: exactly two leading slashes are kept, any other positive
    number collapses to one. *)
Definition split_root (s : string) : string :=
  match leading_slashes s with
  | O => ""
  | 2%nat => "//"
  | _ => "/"
  end.

Definition is_component (x : string) : bool :=
  negb (bool_decide (x = "")) && negb (bool_decide (x = ".")).

(** [Path(s)] for a [str] argument. *)
Definition Path (s : string) : PosixPath :=
  {| root := split_root s; parts := filter (λ x, is_component x = true) (str_split "/" s) |}.

(** [str(p)] *)
Definition path_str (p : PosixPath) : string :=
  match root p, parts p with
  | EmptyString, [] => "."
  | r, ps => r +:+ str_join "/" ps
  end.

(** [p.name] *)
Definition path_name (p : PosixPath) : string := List.last (parts p) "".

(** [p.parent] *)
Definition path_parent (p : PosixPath) : PosixPath :=
  {| root := root p; parts := removelast (parts p) |}.

(** [p / s] *)
Definition path_join (p : PosixPath) (s : string) : PosixPath :=
  let q := Path s in
  match root q with
  | EmptyString => {| root := root p; parts := parts p ++ parts q |}
  | _ => q
  end.

Infix "//" := path_join (at level 40, left associativity).

(** ** xml.etree.ElementTree *)

#[warnings="-register-all"]
Inductive Element : Type :=
  Elem (tag : string) (attrib : gmap string string) (children : list Element).

Definition tag (e : Element) : string := match e with Elem t _ _ => t end.
Definition attrib (e : Element) : gmap string string := match e with Elem _ a _ => a end.
Definition children (e : Element) : list Element := match e with Elem _ _ cs => cs end.

(** [e.iter()]: the element and everything below it, in document order. *)
Fixpoint elem_iter (e : Element) : list Element :=
  match e with
  | Elem _ _ cs => e :: flat_map elem_iter cs
  end.

(** The steps of the XPath subset of [ElementPath] that occur in the
    script's two selectors. *)
Inductive step : Type :=
| Self                        (* .          *)
| Descendant (t : string)     (* //t        *)
| Child (t : string)          (* /t         *)
| AttrEq (k v : string).      (* [@k="v"]   *)

(** One selector applied to the current result list.  [//t] yields, for
    every element of the context, the elements of [elem.iter(t)] other than
    the element itself. *)
Definition select (st : step) (result : list Element) : list Element :=
  match st with
  | Self => result
  | Descendant t =>
      flat_map (λ e, filter (λ d, tag d = t) (flat_map elem_iter (children e))) result
  | Child t => flat_map (λ e, filter (λ c, tag c = t) (children e)) result
  | AttrEq k v => filter (λ e, attrib e !! k = Some v) result
  end.

(** [document.findall(path)]: the selectors run in turn, starting from the
    root element. *)
Definition findall (document : Element) (path : list step) : list Element :=
  foldl (λ result st, select st result) [document] path.

(** [el.attrib[k]] *)
Definition attrib_get (el : Element) (k : string) : result string :=
  match attrib el !! k with
  | Some v => Ok v
  | None => Raise (KeyError k)
  end.

(** ** The surroundings of the script *)

Record World : Type := {
  (** [os.environb.get(b'XDG_CONFIG_HOME')] *)
  environb_XDG_CONFIG_HOME : option string;
  (** [os.path.expanduser] on a first path component that starts with [~];
      the component comes back unchanged when no home directory is known *)
  os_path_expanduser : string → string;
  (** [dir.glob(pattern)] *)
  fs_glob : PosixPath → string → list PosixPath;
  (** [p.exists()], [p.is_file()]: errors other than "no such entry" are raised *)
  fs_exists : PosixPath → result bool;
  fs_is_file : PosixPath → result bool;
  (** [p.read_text(encoding='utf-8')] *)
  fs_read_text : PosixPath → result string;
  (** [etree.parse(p)]: the root element of the parsed document *)
  etree_parse : PosixPath → result Element;
  (** [traceback.format_exc()] while the given exception is handled *)
  format_exc : exn → string
}.

(** [Path(b)] for a [bytes] argument: pathlib accepts [str] only. *)
Definition Path_of_bytes (b : string) : result PosixPath :=
  Raise (TypeError
    "argument should be a str object or an os.PathLike object returning str, not <class 'bytes'>").

(** [p.expanduser()] *)
Definition expanduser (w : World) (p : PosixPath) : result PosixPath :=
  match root p, parts p with
  | EmptyString, first :: rest =>
      if starts_with "~" first then
        let homedir := os_path_expanduser w first in
        if starts_with "~" homedir
        then Raise (RuntimeError "Could not determine home directory.")
        else Ok {| root := root (Path homedir); parts := parts (Path homedir) ++ rest |}
      else Ok p
  | _, _ => Ok p
  end.

(** [Path.home()] *)
Definition Path_home (w : World) : result PosixPath := expanduser w (Path "~").

(** ** The script *)

Record ProductInfo : Type := { key : string; config_glob : string; base_dir : string }.

Definition PRODUCTS : list ProductInfo := [
  {| key := "idea"; config_glob := "IntelliJIdea*"; base_dir := "JetBrains" |};
  {| key := "idea-ce"; config_glob := "IdeaIC*"; base_dir := "JetBrains" |};
  {| key := "webstorm"; config_glob := "WebStorm*"; base_dir := "JetBrains" |};
  {| key := "clion"; config_glob := "CLion*"; base_dir := "JetBrains" |};
  {| key := "goland"; config_glob := "GoLand*"; base_dir := "JetBrains" |};
  {| key := "pycharm"; config_glob := "PyCharm*"; base_dir := "JetBrains" |};
  {| key := "phpstorm"; config_glob := "PhpStorm*"; base_dir := "JetBrains" |};
  {| key := "rider"; config_glob := "Rider*"; base_dir := "JetBrains" |};
  {| key := "android-studio"; config_glob := "AndroidStudio*"; base_dir := "Google" |}
].

Definition product_version (config_dir : PosixPath) : result (Z * Z) :=
  match re_search version_re (path_name config_dir) with
  | Some version =>
      match str_split "." version with
      | [epoch; major] => e ← py_int epoch; m ← py_int major; Ok (e, m)
      | [] | [_] => Raise (ValueError "not enough values to unpack (expected 2, got 1)")
      | _ :: _ :: _ :: _ => Raise (ValueError "too many values to unpack (expected 2)")
      end
  | None =>
      Raise (ValueError ("Not a valid IDEA config directory: " +:+ path_str config_dir))
  end.

Definition find_config_directories (w : World) (product : ProductInfo)
  : result (list PosixPath) :=
  let config_home := default "" (environb_XDG_CONFIG_HOME w) in
  config_home ←
    (if bool_decide (config_home = "")
     then home ← Path_home w; Ok (home // ".config")
     else Path_of_bytes config_home);
  Ok (fs_glob w (config_home // base_dir product) (config_glob product)).

(** Python's [>] on pairs of integers. *)
Definition tuple_gt (a b : Z * Z) : bool :=
  (b.1 <? a.1) || ((a.1 =? b.1) && (b.2 <? a.2)).

(** The loop of [max(iterable, key=f)]: the key of every item is computed as
    it is reached, and an item replaces the current maximum only when its key
    is strictly greater. *)
Fixpoint max_loop {A : Type} (f : A → result (Z * Z)) (best : A) (best_key : Z * Z)
    (l : list A) : result A :=
  match l with
  | [] => Ok best
  | x :: l' =>
      k ← f x;
      if tuple_gt k best_key then max_loop f x k l' else max_loop f best best_key l'
  end.

(** [max(l, key=f, default=None)] *)
Definition py_max {A : Type} (f : A → result (Z * Z)) (l : list A) : result (option A) :=
  match l with
  | [] => Ok None
  | x :: l' => k ← f x; best ← max_loop f x k l'; Ok (Some best)
  end.

Definition find_latest_recent_projects_file (w : World) (product : ProductInfo)
  : result (option PosixPath) :=
  dirs ← find_config_directories w product;
  config_dir ← py_max product_version dirs;
  match config_dir with
  | None => Ok None
  | Some config_dir =>
      let file_name :=
        if bool_decide (key product = "rider")
        then "recentSolutions.xml" else "recentProjects.xml" in
      let config_file := config_dir // "options" // file_name in
      b ← fs_exists w config_file;
      Ok (if b : bool then Some config_file else None)
  end.

(** The dictionary built by [get_project]. *)
Record Project : Type := {
  id : string;
  name : string;
  path : string;
  abspath : string
}.

Definition get_project (w : World) (product : ProductInfo) (path : PosixPath)
  : result Project :=
  expanded ← expanduser w path;
  is_file ← fs_is_file w expanded;
  let project_dir := if is_file : bool then path_parent path else path in
  let namefile := project_dir // ".idea" // ".name" in
  name ←
    match fs_read_text w namefile with
    | Ok text => Ok (strip text)
    | Raise (FileNotFoundError _) => Ok (path_name path)
    | Raise e => Raise e
    end;
  id_path ← expanduser w path;
  abs_path ← expanduser w path;
  Ok {| id := "jetbrains-search-provider-" +:+ key product +:+ "-" +:+ path_str id_path;
        name := name;
        path := path_str path;
        abspath := path_str abs_path |}.

Definition legacy_selector : list step :=
  [Self; Descendant "option"; AttrEq "name" "recentPaths"; Child "list"; Child "option"].

Definition modern_selector : list step :=
  [Self; Descendant "component"; AttrEq "name" "RecentProjectsManager";
   Child "option"; AttrEq "name" "additionalInfo"; Child "map"; Child "entry"].

(** [Path(el.attrib[k].replace('$USER_HOME$', '~'))] *)
Definition recorded_path (k : string) (el : Element) : result PosixPath :=
  v ← attrib_get el k; Ok (Path (str_replace v "$USER_HOME$" "~")).

(** The set [paths] of [find_recent_projects]: first the legacy layout, then
    the layout since IDEA 2020.3. *)
Definition recent_paths (document : Element) : result (gset PosixPath) :=
  legacy ← traverse (recorded_path "value") (findall document legacy_selector);
  let paths : gset PosixPath := list_to_set legacy in
  modern ← traverse (recorded_path "key") (findall document modern_selector);
  Ok (paths ∪ list_to_set modern).

(** The generator loop [for path in paths: if ...exists(): yield ...]. *)
Fixpoint yield_projects (w : World) (product : ProductInfo) (paths : list PosixPath)
  : result (list Project) :=
  match paths with
  | [] => Ok []
  | path :: paths' =>
      expanded ← expanduser w path;
      found ← fs_exists w expanded;
      if found : bool
      then project ← get_project w product path;
           rest ← yield_projects w product paths';
           Ok (project :: rest)
      else yield_projects w product paths'
  end.

(** [list(find_recent_projects(product, recent_projects_file))].  Python
    leaves the iteration order of a set open; the embedding walks
    [elements paths]. *)
Definition find_recent_projects (w : World) (product : ProductInfo)
    (recent_projects_file : PosixPath) : result (list Project) :=
  document ← etree_parse w recent_projects_file;
  paths ← recent_paths document;
  yield_projects w product (elements paths).

Inductive Envelope : Type :=
| success (projects : list (string * list Project))
| error (message traceback : string).

(** The value of the ['kind'] entry. *)
Definition kind (e : Envelope) : string :=
  match e with
  | success _ => "success"
  | error _ _ => "error"
  end.

(** One step of the generator [find_all_recent_projects]. *)
Definition recent_projects_of (w : World) (product : ProductInfo)
  : result (string * list Project) :=
  config_file ← find_latest_recent_projects_file w product;
  match config_file with
  | Some config_file =>
      projects ← find_recent_projects w product config_file;
      Ok (key product, projects)
  | None => Ok (key product, [])
  end.

(** [list(find_all_recent_projects())] *)
Definition find_all_recent_projects (w : World) : result (list (string * list Project)) :=
  traverse (recent_projects_of w) PRODUCTS.

(** [main]: what is printed (one JSON document per [print]) and the exit
    status of the process. *)
Definition main (w : World) : list Envelope * Z :=
  match find_all_recent_projects w with
  | Ok projects => ([success projects], 0)
  | Raise exc => ([error (exn_str exc) (format_exc w exc)], 1)
  end.

(** ** Vocabulary of the statements *)

(** The words of a regular expression, independently of any matcher. *)
Inductive re_lang : regex → string → Prop :=
| lang_digit c : is_digit c = true → re_lang Digit (String c "")
| lang_chr c : re_lang (Chr c) (String c "")
| lang_cat r1 r2 u v : re_lang r1 u → re_lang r2 v → re_lang (Cat r1 r2) (u +:+ v)
| lang_rep_stop r hi : re_lang (Rep r 0 hi) ""
| lang_rep_more r lo hi u v :
    re_lang r u → re_lang (Rep r (Nat.pred lo) hi) v → re_lang (Rep r lo (S hi)) (u +:+ v).

(** A version token: one to four digits, a dot, one or two digits. *)
Definition version_token (d1 d2 : string) : Prop :=
  all_digits d1 = true ∧ (1 ≤ String.length d1 ≤ 4)%nat ∧
  all_digits d2 = true ∧ (1 ≤ String.length d2 ≤ 2)%nat.

(** [s] has a version token that starts at offset [n]. *)
Definition token_at (n : nat) (s : string) : Prop :=
  ∃ pre d1 d2 post,
    s = pre +:+ d1 +:+ "." +:+ d2 +:+ post ∧ String.length pre = n ∧ version_token d1 d2.

Definition has_version_token (s : string) : Prop := ∃ n, token_at n s.

Definition starts_with_digit (s : string) : bool :=
  match s with
  | String c _ => is_digit c
  | EmptyString => false
  end.

(** The order of Python on pairs of integers: the first components decide,
    the second ones break a tie. *)
Definition version_le (a b : Z * Z) : Prop :=
  a.1 < b.1 ∨ (a.1 = b.1 ∧ a.2 ≤ b.2).

(** The name of the registry file of a product. *)
Definition registry_name (product : ProductInfo) : string :=
  if bool_decide (key product = "rider") then "recentSolutions.xml" else "recentProjects.xml".

Fixpoint all_space (s : string) : bool :=
  match s with
  | EmptyString => true
  | String c s' => is_space c && all_space s'
  end.

Definition first_char (s : string) : option ascii :=
  match s with
  | String c _ => Some c
  | EmptyString => None
  end.

Fixpoint last_char (s : string) : option ascii :=
  match s with
  | EmptyString => None
  | String c EmptyString => Some c
  | String _ s' => last_char s'
  end.

(** [t] is [text] without its leading and trailing whitespace. *)
Definition trimmed_of (text t : string) : Prop :=
  ∃ l r, text = l +:+ t +:+ r ∧ all_space l = true ∧ all_space r = true ∧
         (∀ c, first_char t = Some c → is_space c = false) ∧
         (∀ c, last_char t = Some c → is_space c = false).

(** The marker file [get_project] reads for [path]. *)
Definition name_marker (path : PosixPath) (is_file : bool) : PosixPath :=
  (if is_file then path_parent path else path) // ".idea" // ".name".

(** [c in s] *)
Fixpoint str_mem (c : ascii) (s : string) : bool :=
  match s with
  | EmptyString => false
  | String a s' => bool_decide (a = c) || str_mem c s'
  end.

(** [below d e]: [d] is somewhere below [e] in the document. *)
Inductive below : Element → Element → Prop :=
| below_child d e : d ∈ children e → below d e
| below_deeper d c e : below d c → c ∈ children e → below d e.

(** [el] is an [option] in a [list] in an [option name="recentPaths"]
    somewhere below the root. *)
Definition legacy_entry (document el : Element) : Prop :=
  ∃ o l,
    below o document ∧ tag o = "option" ∧ attrib o !! "name" = Some "recentPaths" ∧
    l ∈ children o ∧ tag l = "list" ∧
    el ∈ children l ∧ tag el = "option".

(** [el] is an [entry] in a [map] in an [option name="additionalInfo"] in a
    [component name="RecentProjectsManager"] somewhere below the root. *)
Definition modern_entry (document el : Element) : Prop :=
  ∃ c o m,
    below c document ∧ tag c = "component" ∧
    attrib c !! "name" = Some "RecentProjectsManager" ∧
    o ∈ children c ∧ tag o = "option" ∧ attrib o !! "name" = Some "additionalInfo" ∧
    m ∈ children o ∧ tag m = "map" ∧
    el ∈ children m ∧ tag el = "entry".

(** [replaced old new s t]: [t] is [s] with the occurrences of [old], taken
    from the left and not overlapping, replaced by [new]. *)
Inductive replaced (old new : string) : string → string → Prop :=
| replaced_nil : replaced old new "" ""
| replaced_hit s t : replaced old new s t → replaced old new (old +:+ s) (new +:+ t)
| replaced_skip c s t :
    starts_with old (String c s) = false → replaced old new s t →
    replaced old new (String c s) (String c t).

(** The path recorded by the attribute value [v]. *)
Definition recorded_as (v : string) (p : PosixPath) : Prop :=
  ∃ t, replaced "$USER_HOME$" "~" v t ∧ p = Path t.

(** The strict order of Python on pairs of integers. *)
Definition version_lt (a b : Z * Z) : Prop :=
  a.1 < b.1 ∨ (a.1 = b.1 ∧ a.2 < b.2).

(** [old in s] *)
Fixpoint occurs (old s : string) : bool :=
  starts_with old s ||
  match s with
  | EmptyString => false
  | String _ s' => occurs old s'
  end.

(** A path component: not empty, not [.], without a slash. *)
Definition component (x : string) : Prop :=
  x ≠ "" ∧ x ≠ "." ∧ str_mem "/" x = false.

(** The paths [Path] builds. *)
Definition well_formed (p : PosixPath) : Prop :=
  (root p = "" ∨ root p = "/" ∨ root p = "//") ∧ Forall component (parts p).

(** ** Sample worlds *)

(** A user [u] with home [/home/u], no [XDG_CONFIG_HOME], and a file system
    given by the names of the IntelliJ IDEA configuration directories, the
    paths that exist, the paths that are regular files, the readable text
    files, and what the XML parser makes of any registry file. *)
Definition sample_world (idea_dirs existing files : list string)
    (texts : list (string * result string)) (document : result Element) : World := {|
  environb_XDG_CONFIG_HOME := None;
  os_path_expanduser first := if bool_decide (first = "~") then "/home/u" else first;
  fs_glob dir pattern :=
    if bool_decide (path_str dir = "/home/u/.config/JetBrains" ∧ pattern = "IntelliJIdea*")
    then map (path_join dir) idea_dirs else [];
  fs_exists p := Ok (bool_decide (path_str p ∈ existing));
  fs_is_file p := Ok (bool_decide (path_str p ∈ files));
  fs_read_text p :=
    default (Raise (FileNotFoundError "[Errno 2] No such file or directory"))
            (list_to_map (M := gmap string (result string)) texts !! path_str p);
  etree_parse _ := document;
  format_exc _ := "Traceback (most recent call last): ..."
|}.

Definition el (t : string) (a : list (string * string)) (cs : list Element) : Element :=
  Elem t (list_to_map a) cs.

Definition idea : ProductInfo :=
  {| key := "idea"; config_glob := "IntelliJIdea*"; base_dir := "JetBrains" |}.

(** Three versioned configuration directories. *)
Definition world_three_versions : World :=
  sample_world ["IntelliJIdea2023.1"; "IntelliJIdea2023.3"; "IntelliJIdea2022.12"]
    [] [] [] (Raise (ParseError "unused")).

Definition three_dirs : list PosixPath :=
  [Path "/home/u/.config/JetBrains/IntelliJIdea2023.1";
   Path "/home/u/.config/JetBrains/IntelliJIdea2023.3";
   Path "/home/u/.config/JetBrains/IntelliJIdea2022.12"].



Definition idea_registry : string :=
  "/home/u/.config/JetBrains/IntelliJIdea2023.1/options/recentProjects.xml".

(** No configuration directory of any product. *)
Definition world_no_dirs : World :=
  sample_world [] [] [] [] (Raise (ParseError "unused")).

(** IDEA 2023.1 with a registry file that is not XML. *)
Definition world_parse_error : World :=
  sample_world ["IntelliJIdea2023.1"] [idea_registry] [idea_registry] []
    (Raise (ParseError "syntax error: line 1, column 0")).

(** The payload of a run that finds nothing. *)
Definition empty_payload : list (string * list Project) :=
  [("idea", []); ("idea-ce", []); ("webstorm", []); ("clion", []); ("goland", []);
   ("pycharm", []); ("phpstorm", []); ("rider", []); ("android-studio", [])].

(** A registry with both layouts: [~/x] is recorded in the old one and, as
    [/home/u/x] and as [~/x], in the new one; [/home/u/y] is gone. *)
Definition two_layouts : Element :=
  el "application" [] [
    el "component" [("name", "RecentProjectsManager")] [
      el "option" [("name", "recentPaths")] [
        el "list" [] [
          el "option" [("value", "$USER_HOME$/x")] [];
          el "option" [("value", "/home/u/y")] [] ] ];
      el "option" [("name", "additionalInfo")] [
        el "map" [] [
          el "entry" [("key", "/home/u/x")] [];
          el "entry" [("key", "$USER_HOME$/x")] [] ] ] ] ].

Definition newline : string := String "010" "".

(** IDEA 2023.1 with the registry [two_layouts]; the project [/home/u/x]
    has a name marker. *)
Definition world_two_layouts : World :=
  sample_world ["IntelliJIdea2023.1"] [idea_registry; "/home/u/x"] [idea_registry]
    [("/home/u/x/.idea/.name", Ok ("My App" +:+ newline))] (Ok two_layouts).

(** The same, but the name marker cannot be read. *)
Definition world_unreadable_marker : World :=
  sample_world ["IntelliJIdea2023.1"] [idea_registry; "/home/u/x"] [idea_registry]
    [("/home/u/x/.idea/.name",
      Raise (PermissionError "[Errno 13] Permission denied: '/home/u/x/.idea/.name'"))]
    (Ok two_layouts).

(** A registry whose old layout has an entry without [value]. *)
Definition missing_value : Element :=
  el "application" [] [
    el "component" [("name", "RecentProjectsManager")] [
      el "option" [("name", "recentPaths")] [
        el "list" [] [
          el "option" [("value", "/home/u/x")] [];
          el "option" [] [] ] ] ] ].

Definition world_missing_value : World :=
  sample_world ["IntelliJIdea2023.1"] [idea_registry; "/home/u/x"] [idea_registry] []
    (Ok missing_value).

(** [world_two_layouts] with [XDG_CONFIG_HOME=/home/u/.config]. *)
Definition world_xdg : World := {|
  environb_XDG_CONFIG_HOME := Some "/home/u/.config";
  os_path_expanduser := os_path_expanduser world_two_layouts;
  fs_glob := fs_glob world_two_layouts;
  fs_exists := fs_exists world_two_layouts;
  fs_is_file := fs_is_file world_two_layouts;
  fs_read_text := fs_read_text world_two_layouts;
  etree_parse := etree_parse world_two_layouts;
  format_exc := format_exc world_two_layouts
|}.

(** A registry without any recorded project. *)
Definition no_entries : Element := el "application" [] [].

(** Two configuration directories of the same version. *)
Definition same_version_dirs : list PosixPath :=
  [Path "/a/IntelliJIdea2023.3"; Path "/b/IntelliJIdea2023.3"; Path "/c/IntelliJIdea2023.1"].

(** IDEA 2023.1 with the registry [no_entries]. *)
Definition world_no_entries : World :=
  sample_world ["IntelliJIdea2023.1"] [idea_registry] [idea_registry] [] (Ok no_entries).

(** The two records of IDEA in [world_two_layouts]. *)
Definition record_x : Project :=
  {| id := "jetbrains-search-provider-idea-/home/u/x"; name := "My App";
     path := "/home/u/x"; abspath := "/home/u/x" |}.

Definition record_home_x : Project :=
  {| id := "jetbrains-search-provider-idea-/home/u/x"; name := "x";
     path := "~/x"; abspath := "/home/u/x" |}.

(** The payload of the run in [world_two_layouts]. *)
Definition two_layouts_payload : list (string * list Project) :=
  [("idea", [record_x; record_home_x]);
   ("idea-ce", []); ("webstorm", []); ("clion", []); ("goland", []);
   ("pycharm", []); ("phpstorm", []); ("rider", []); ("android-studio", [])].


(** * Properties *)

(** ** Strings *)

Lemma app_nil_l (s : string) : "" +:+ s = s.
Proof. reflexivity. Qed.

Lemma app_cons (c : ascii) (s t : string) : String c s +:+ t = String c (s +:+ t).
Proof. reflexivity. Qed.

Lemma app_nil_r (s : string) : s +:+ "" = s.
Proof. induction s as [|c s IH]; [done|]. by rewrite app_cons, IH. Qed.

Lemma app_assoc (s t u : string) : (s +:+ t) +:+ u = s +:+ t +:+ u.
Proof. induction s as [|c s IH]; [done|]. by rewrite !app_cons, IH. Qed.

Lemma length_app (s t : string) :
  String.length (s +:+ t) = (String.length s + String.length t)%nat.
Proof. induction s as [|c s IH]; [done|]. rewrite app_cons. simpl. by rewrite IH. Qed.

Lemma app_eq_nil (s t : string) : s +:+ t = "" → s = "" ∧ t = "".
Proof. destruct s; [done|]. by rewrite app_cons. Qed.

Lemma str_take_app (u rest : string) :
  str_take (String.length (u +:+ rest) - String.length rest) (u +:+ rest) = u.
Proof.
  rewrite length_app.
  replace (String.length u + String.length rest - String.length rest)%nat
    with (String.length u) by lia.
  induction u as [|c u IH]; simpl.
  - by destruct rest.
  - by rewrite IH.
Qed.

Lemma all_digits_app (u v : string) :
  all_digits (u +:+ v) = all_digits u && all_digits v.
Proof.
  induction u as [|c u IH]; [done|].
  rewrite app_cons. simpl. rewrite IH. by rewrite andb_assoc.
Qed.

Lemma dot_not_digit : is_digit "." = false.
Proof. reflexivity. Qed.

Lemma str_split_no_sep (c : ascii) (s : string) :
  (∀ a, is_digit a = true → a ≠ c) → all_digits s = true → str_split c s = [s].
Proof.
  intros Hc. induction s as [|a s IH]; [done|]. simpl.
  intros [Ha Hs]%andb_true_iff.
  destruct (decide (a = c)) as [->|_]; [by destruct (Hc c Ha)|].
  by rewrite (IH Hs).
Qed.

Lemma str_split_token (d1 d2 : string) :
  all_digits d1 = true → all_digits d2 = true →
  str_split "." (d1 +:+ "." +:+ d2) = [d1; d2].
Proof.
  assert (Hdot : ∀ a, is_digit a = true → a ≠ "."%char).
  { intros a Ha ->. by rewrite dot_not_digit in Ha. }
  intros H1 H2. induction d1 as [|a d1 IH].
  - rewrite app_nil_l, app_cons, app_nil_l. simpl.
    by rewrite (str_split_no_sep _ _ Hdot H2).
  - simpl in H1. apply andb_true_iff in H1 as [Ha H1].
    rewrite app_cons. simpl.
    destruct (decide (a = "."%char)) as [->|_]; [by destruct (Hdot _ Ha)|].
    by rewrite (IH H1).
Qed.

Lemma py_int_digits (s : string) :
  all_digits s = true → (1 ≤ String.length s)%nat → py_int s = Ok (digits_value 0 s).
Proof.
  intros Hs Hlen. destruct s as [|c s]; [simpl in Hlen; lia|].
  unfold py_int. by rewrite Hs.
Qed.

Lemma digits_value_nonneg (s : string) (acc : Z) :
  all_digits s = true → 0 ≤ acc → 0 ≤ digits_value acc s.
Proof.
  revert acc. induction s as [|c s IH]; intros acc Hs Hacc; [done|].
  simpl in *. apply andb_true_iff in Hs as [Hc Hs]. apply IH; [done|].
  unfold digit_val, is_digit in *. apply andb_true_iff in Hc as [Hc _].
  apply N.leb_le in Hc. lia.
Qed.

(** ** The matcher against the language of a regular expression *)

Section MatcherCorrect.
Context {A : Type}.
Implicit Types (k : string → option A) (s u rest : string).

(** What the matcher accepts is a word of the language followed by a rest
    the continuation accepts. *)
Lemma re_match_sound r s k x :
  re_match r s k = Some x →
  ∃ u rest, s = u +:+ rest ∧ re_lang r u ∧ k rest = Some x.
Proof.
  revert s k x. induction r as [|c|r1 IH1 r2 IH2|r IH lo hi]; intros s k x; simpl.
  - destruct s as [|c s]; [done|]. destruct (is_digit c) eqn:Hc; [|done].
    intros Hk. exists (String c ""), s. split_and!; [done|by constructor|done].
  - destruct s as [|a s]; [done|]. destruct (decide (a = c)) as [->|]; [|done].
    intros Hk. exists (String c ""), s. split_and!; [done|by constructor|done].
  - intros (u & rest1 & -> & Hu & H2)%IH1.
    apply IH2 in H2 as (v & rest & -> & Hv & Hk).
    exists (u +:+ v), rest. rewrite app_assoc. split_and!; [done|by constructor|done].
  - revert lo s k x. induction hi as [|hi IHhi]; intros lo s k x; simpl.
    + destruct lo; [|done]. intros Hk. exists "", s. split_and!; [done|constructor|done].
    + destruct (re_match r s _) as [y|] eqn:Hm.
      * intros [= ->]. apply IH in Hm as (u & rest1 & -> & Hu & Hgo).
        apply IHhi in Hgo as (v & rest & -> & Hv & Hk).
        exists (u +:+ v), rest. rewrite app_assoc.
        split_and!; [done|by constructor|done].
      * destruct lo; [|done]. intros Hk.
        exists "", s. split_and!; [done|constructor|done].
Qed.

(** Whenever some word of the language is followed by a rest the
    continuation accepts, the matcher succeeds. *)
Lemma re_match_complete r u :
  re_lang r u →
  ∀ rest k x, k rest = Some x → ∃ y, re_match r (u +:+ rest) k = Some y.
Proof.
  induction 1 as [c Hc|c|r1 r2 u v _ IH1 _ IH2|r hi|r lo hi u v _ IH1 _ IH2];
    intros rest k x Hk.
  - rewrite app_cons, app_nil_l. simpl. rewrite Hc. eauto.
  - rewrite app_cons, app_nil_l. simpl. rewrite decide_True by done. eauto.
  - rewrite app_assoc. simpl.
    destruct (IH2 rest k x Hk) as [y Hy]. eapply IH1, Hy.
  - rewrite app_nil_l. destruct hi as [|hi]; simpl; [eauto|].
    destruct (re_match r rest _); eauto.
  - rewrite app_assoc.
    destruct (IH2 rest k x Hk) as [y Hy]. simpl in Hy.
    destruct (IH1 (v +:+ rest)
                (λ s', rep_greedy (re_match r) (Nat.pred lo) hi s' k) y Hy) as [z Hz].
    simpl. rewrite Hz. eauto.
Qed.
End MatcherCorrect.

(** The words of [\d{lo,hi}] are the digit strings of a length in range. *)
Lemma rep_digit_lang (lo hi : nat) (u : string) :
  re_lang (Rep Digit lo hi) u ↔
  all_digits u = true ∧ (lo ≤ String.length u ≤ hi)%nat.
Proof.
  split.
  - remember (Rep Digit lo hi) as r eqn:Hr. intros H. revert lo hi Hr.
    induction H as [| | |r hi'|r lo' hi' u v Hu _ _ IH]; intros lo hi Hr; try done.
    + simplify_eq. simpl. split; [done|lia].
    + simplify_eq. inversion Hu as [c Hc| | | |]; subst.
      destruct (IH _ _ eq_refl) as [Hv Hlen].
      rewrite app_cons, app_nil_l. simpl. rewrite Hv, Hc. split; [done|lia].
  - revert lo u. induction hi as [|hi IH]; intros lo u [Hu Hlen].
    + destruct u; [|simpl in Hlen; lia]. assert (lo = 0%nat) as -> by (simpl in Hlen; lia).
      constructor.
    + destruct u as [|c u].
      * assert (lo = 0%nat) as -> by (simpl in Hlen; lia). constructor.
      * simpl in Hu, Hlen. apply andb_true_iff in Hu as [Hc Hu].
        change (String c u) with (String c "" +:+ u).
        constructor; [by constructor|]. apply IH. split; [done|lia].
Qed.

(** The words of [version_re] are the version tokens. *)
Lemma version_re_lang (m : string) :
  re_lang version_re m ↔ ∃ d1 d2, m = d1 +:+ "." +:+ d2 ∧ version_token d1 d2.
Proof.
  unfold version_re, version_token. split.
  - intros H. inversion H as [| |r1 r2 d1 v H1 H2| |]; subst.
    inversion H2 as [| |r1 r2 dot d2 Hdot Hd2| |]; subst.
    inversion Hdot; subst.
    apply rep_digit_lang in H1 as [H1 Hl1]. apply rep_digit_lang in Hd2 as [Hd2 Hl2].
    by exists d1, d2.
  - intros (d1 & d2 & -> & H1 & Hl1 & H2 & Hl2).
    constructor; [by apply rep_digit_lang|].
    change ("." +:+ d2) with (String "." "" +:+ d2).
    constructor; [constructor|by apply rep_digit_lang].
Qed.

(** [\d{1,2}] at the end of the pattern is greedy: it takes the second digit
    whenever there is one. *)
Lemma last_digits_greedy (s rest : string) :
  re_match (Rep Digit 1 2) s Some = Some rest →
  ∃ d2, s = d2 +:+ rest ∧ all_digits d2 = true ∧ (1 ≤ String.length d2 ≤ 2)%nat ∧
        (String.length d2 = 2%nat ∨ starts_with_digit rest = false).
Proof.
  destruct s as [|c1 s]; [done|]. simpl.
  destruct (is_digit c1) eqn:H1; [|done].
  destruct s as [|c2 s].
  - intros [= <-]. exists (String c1 ""). simpl. rewrite H1. split_and!; auto; lia.
  - destruct (is_digit c2) eqn:H2.
    + intros [= <-]. exists (String c1 (String c2 "")). simpl. rewrite H1, H2.
      split_and!; auto; lia.
    + intros [= <-]. exists (String c1 ""). simpl. rewrite H1, H2.
      split_and!; auto; lia.
Qed.

(** The match the pattern makes at the start of a string. *)
Lemma version_re_match (s rest : string) :
  re_match version_re s Some = Some rest →
  ∃ d1 d2, s = d1 +:+ "." +:+ d2 +:+ rest ∧ version_token d1 d2 ∧
           (String.length d2 = 2%nat ∨ starts_with_digit rest = false).
Proof.
  unfold version_re. simpl re_match at 1.
  intros (d1 & r1 & -> & H1 & Hk)%(re_match_sound (Rep Digit 1 4)).
  apply (re_match_sound (Chr ".")) in Hk as (dot & r2 & -> & Hdot & Hk).
  inversion Hdot; subst.
  apply last_digits_greedy in Hk as (d2 & -> & H2 & Hl2 & Hgreedy).
  apply rep_digit_lang in H1 as [H1 Hl1].
  exists d1, d2. split_and!; [done|by unfold version_token|done].
Qed.

(** The pattern matches at the start of a string exactly when a version
    token starts there. *)
Lemma version_re_match_None (s : string) :
  re_match version_re s Some = None → ¬ token_at 0 s.
Proof.
  intros Hnone (pre & d1 & d2 & post & -> & Hpre & Htok).
  destruct pre; [|done]. rewrite app_nil_l in Hnone.
  assert (re_lang version_re (d1 +:+ "." +:+ d2)) as Hlang
    by (apply version_re_lang; eauto).
  destruct (re_match_complete _ _ Hlang post Some post eq_refl) as [y Hy].
  rewrite !app_assoc in Hy. change (String "." (d2 +:+ post)) with ("." +:+ d2 +:+ post) in Hy.
  congruence.
Qed.

Lemma token_at_S (n : nat) (c : ascii) (s : string) :
  token_at (S n) (String c s) ↔ token_at n s.
Proof.
  split.
  - intros (pre & d1 & d2 & post & Hs & Hpre & Htok).
    destruct pre as [|a pre]; [done|]. rewrite app_cons in Hs.
    injection Hs as -> ->. injection Hpre as Hpre. by exists pre, d1, d2, post.
  - intros (pre & d1 & d2 & post & -> & Hpre & Htok).
    exists (String c pre), d1, d2, post. rewrite app_cons. simpl. by rewrite Hpre.
Qed.

(** [re.search] with the version pattern: the leftmost token, with the
    second digit of the minor part whenever there is one; no result exactly
    when there is no token. *)
Lemma version_search_spec (s : string) :
  match re_search version_re s with
  | Some version =>
      ∃ pre d1 d2 post,
        s = pre +:+ d1 +:+ "." +:+ d2 +:+ post ∧ version = d1 +:+ "." +:+ d2 ∧
        version_token d1 d2 ∧
        (String.length d2 = 2%nat ∨ starts_with_digit post = false) ∧
        (∀ n, token_at n s → (String.length pre ≤ n)%nat)
  | None => ¬ has_version_token s
  end.
Proof.
  induction s as [|c s IH].
  - cbn [re_search]. destruct (re_match version_re "" Some) as [rest|] eqn:Hm.
    + by apply version_re_match in Hm as (d1 & d2 & Hs & _); destruct d1.
    + intros [n (pre & d1 & d2 & post & Hs & _)]. symmetry in Hs.
      apply app_eq_nil in Hs as [_ Hs]. by destruct d1.
  - cbn [re_search]. destruct (re_match version_re (String c s) Some) as [rest|] eqn:Hm.
    + apply version_re_match in Hm as (d1 & d2 & Hs & Htok & Hgreedy).
      exists "", d1, d2, rest. rewrite app_nil_l. split_and!; try done.
      * rewrite Hs.
        replace (d1 +:+ "." +:+ d2 +:+ rest) with ((d1 +:+ "." +:+ d2) +:+ rest)
          by (by rewrite !app_assoc).
        apply str_take_app.
      * simpl. lia.
    + apply version_re_match_None in Hm.
      destruct (re_search version_re s) as [version|].
      * destruct IH as (pre & d1 & d2 & post & -> & -> & Htok & Hgreedy & Hleft).
        exists (String c pre), d1, d2, post. rewrite app_cons. split_and!; try done.
        intros [|n] Hn; [done|]. apply token_at_S in Hn. apply Hleft in Hn. simpl. lia.
      * intros [[|n] Hn]; [done|]. apply token_at_S in Hn. apply IH. by exists n.
Qed.


Lemma version_search_Some (s version : string) :
  re_search version_re s = Some version → has_version_token s.
Proof.
  intros Hs. pose proof (version_search_spec s) as H. rewrite Hs in H.
  destruct H as (pre & d1 & d2 & post & H & _ & Htok & _).
  exists (String.length pre). by exists pre, d1, d2, post.
Qed.

(** ** Version extraction *)

Lemma product_version_token (config_dir : PosixPath) :
  has_version_token (path_name config_dir) →
  ∃ pre d1 d2 post,
    path_name config_dir = pre +:+ d1 +:+ "." +:+ d2 +:+ post ∧
    version_token d1 d2 ∧
    (∀ n, token_at n (path_name config_dir) → (String.length pre ≤ n)%nat) ∧
    (String.length d2 = 2%nat ∨ starts_with_digit post = false) ∧
    product_version config_dir = Ok (digits_value 0 d1, digits_value 0 d2).
Proof.
  intros Hhas.
  pose proof (version_search_spec (path_name config_dir)) as Hsearch.
  unfold product_version.
  destruct (re_search version_re (path_name config_dir)) as [version|]; [|done].
  destruct Hsearch as (pre & d1 & d2 & post & Hs & -> & Htok & Hgreedy & Hleft).
  exists pre, d1, d2, post. split_and!; try done.
  destruct Htok as (H1 & Hl1 & H2 & Hl2).
  rewrite str_split_token by done.
  rewrite !py_int_digits by (done || lia). done.
Qed.


(** Version extraction never fails on the conversion of its two parts, and
    both numbers are non-negative. *)
Lemma product_version_total (config_dir : PosixPath) :
  has_version_token (path_name config_dir) →
  ∃ epoch major, product_version config_dir = Ok (epoch, major) ∧ 0 ≤ epoch ∧ 0 ≤ major.
Proof.
  intros (pre & d1 & d2 & post & _ & (H1 & _ & H2 & _) & _ & _ & ->)%product_version_token.
  eexists _, _. split_and!; [done|by apply digits_value_nonneg..].
Qed.

(** A directory has a version exactly when its name has a version token. *)
Lemma product_version_Ok_iff (config_dir : PosixPath) :
  (∃ v, product_version config_dir = Ok v) ↔ has_version_token (path_name config_dir).
Proof.
  split.
  - intros [v Hv]. pose proof (version_search_spec (path_name config_dir)) as Hsearch.
    unfold product_version in Hv.
    destruct (re_search version_re (path_name config_dir)); [|done].
    destruct Hsearch as (pre & d1 & d2 & post & Hs & _ & Htok & _).
    exists (String.length pre). by exists pre, d1, d2, post.
  - intros (e & m & H & _)%product_version_total. eauto.
Qed.



Example product_version_examples :
  product_version (Path "IntelliJIdea2023.1") = Ok (2023, 1) ∧
  product_version (Path "x/PyCharm2023.123") = Ok (2023, 12) ∧
  product_version (Path "AndroidStudio123456.7") = Ok (3456, 7) ∧
  product_version (Path "GoLand1.2.3") = Ok (1, 2).
Proof. by repeat split. Qed.

(** ** The error monad *)

Lemma traverse_Ok_length {A B : Type} (f : A → result B) (l : list A) (ys : list B) :
  traverse f l = Ok ys → length ys = length l.
Proof.
  revert ys. induction l as [|x l IH]; intros ys; simpl.
  - by intros [= <-].
  - destruct (f x) as [y|]; [|done]. simpl.
    destruct (traverse f l) as [ys'|]; [|done]. simpl.
    intros [= <-]. simpl. by rewrite (IH ys').
Qed.

Lemma traverse_Ok_lookup {A B : Type} (f : A → result B) (l : list A) (ys : list B)
    (i : nat) (x : A) :
  traverse f l = Ok ys → l !! i = Some x → ∃ y, ys !! i = Some y ∧ f x = Ok y.
Proof.
  revert ys i. induction l as [|a l IH]; intros ys i; simpl; [done|].
  destruct (f a) as [y|] eqn:Hfa; [|done]. simpl.
  destruct (traverse f l) as [ys'|]; [|done]. simpl.
  intros [= <-]. destruct i as [|i]; simpl.
  - intros [= <-]. eauto.
  - by apply IH.
Qed.

(** If the body raises on one item the whole traversal raises, with the
    exception of some item. *)
Lemma traverse_Raise {A B : Type} (f : A → result B) (l : list A) (x : A) (e : exn) :
  x ∈ l → f x = Raise e →
  ∃ x' e', x' ∈ l ∧ f x' = Raise e' ∧ traverse f l = Raise e'.
Proof.
  intros Hx Hfx. induction l as [|a l IH]; [by apply elem_of_nil in Hx|].
  simpl. destruct (f a) as [y|e1] eqn:Hfa.
  - apply elem_of_cons in Hx as [->|Hx]; [congruence|].
    destruct (IH Hx) as (x' & e' & Hx' & Hfx' & ->).
    exists x', e'. split_and!; [by right|done|done].
  - exists a, e1. split_and!; [by left|done|done].
Qed.

Lemma traverse_Ok_map {A B C : Type} (f : A → result B) (g : B → C) (h : A → C)
    (l : list A) (ys : list B) :
  (∀ x y, f x = Ok y → g y = h x) → traverse f l = Ok ys → map g ys = map h l.
Proof.
  intros Hgh. revert ys. induction l as [|a l IH]; intros ys; simpl.
  - by intros [= <-].
  - destruct (f a) as [y|] eqn:Hfa; [|done]. simpl.
    destruct (traverse f l) as [ys'|]; [|done]. simpl.
    intros [= <-]. simpl. by rewrite (Hgh a y Hfa), (IH ys').
Qed.

(** If the body succeeds on every item the traversal succeeds. *)
Lemma traverse_Ok {A B : Type} (f : A → result B) (l : list A) :
  (∀ x, x ∈ l → ∃ y, f x = Ok y) → ∃ ys, traverse f l = Ok ys.
Proof.
  induction l as [|a l IH]; intros Hl; simpl; [by eexists|].
  destruct (Hl a) as [y ->]; [by left|]. simpl.
  destruct IH as [ys ->]; [|by eexists].
  intros x Hx. apply Hl. by right.
Qed.

(** ** Selection of the latest configuration directory *)

Lemma version_le_refl (a : Z * Z) : version_le a a.
Proof. unfold version_le. lia. Qed.

Lemma version_le_trans (a b c : Z * Z) : version_le a b → version_le b c → version_le a c.
Proof. unfold version_le. lia. Qed.

Lemma tuple_gt_true (a b : Z * Z) : tuple_gt a b = true → version_le b a.
Proof. unfold tuple_gt, version_le. lia. Qed.

Lemma tuple_gt_false (a b : Z * Z) : tuple_gt a b = false → version_le a b.
Proof. unfold tuple_gt, version_le. lia. Qed.

Section Max.
Context {A : Type} (f : A → result (Z * Z)).

Lemma max_loop_Ok (l : list A) (best : A) (best_key : Z * Z) :
  f best = Ok best_key →
  (∀ x, x ∈ l → ∃ v, f x = Ok v) →
  ∃ c v, max_loop f best best_key l = Ok c ∧ (c = best ∨ c ∈ l) ∧ f c = Ok v ∧
         version_le best_key v ∧
         (∀ x v', x ∈ l → f x = Ok v' → version_le v' v).
Proof.
  revert best best_key. induction l as [|a l IH]; intros best best_key Hbest Hl; simpl.
  - exists best, best_key. split_and!; [done|by left|done|apply version_le_refl|].
    by intros x v' Hx%elem_of_nil.
  - destruct (Hl a) as [k Hk]; [by left|]. rewrite Hk. simpl.
    assert (Hl' : ∀ x, x ∈ l → ∃ v, f x = Ok v) by (intros x Hx; apply Hl; by right).
    destruct (tuple_gt k best_key) eqn:Hgt.
    + destruct (IH a k Hk Hl') as (c & v & Hc & Hin & Hfc & Hle & Hmax).
      exists c, v. split_and!; [done| |done| |].
      * right. destruct Hin as [->|Hin]; [by left|by right].
      * eapply version_le_trans; [by apply tuple_gt_true|done].
      * intros x v' [->|Hx]%elem_of_cons Hfx; [|by eapply Hmax].
        by assert (v' = k) as -> by congruence.
    + destruct (IH best best_key Hbest Hl') as (c & v & Hc & Hin & Hfc & Hle & Hmax).
      exists c, v. split_and!; [done| |done|done|].
      * destruct Hin as [->|Hin]; [by left|right; by right].
      * intros x v' [->|Hx]%elem_of_cons Hfx; [|by eapply Hmax].
        assert (v' = k) as -> by congruence.
        eapply version_le_trans; [by apply tuple_gt_false|done].
Qed.

(** On candidates that all have a key, [max] returns one with a maximal key. *)
Lemma py_max_Ok (l : list A) :
  l ≠ [] →
  (∀ x, x ∈ l → ∃ v, f x = Ok v) →
  ∃ c v, py_max f l = Ok (Some c) ∧ c ∈ l ∧ f c = Ok v ∧
         (∀ x v', x ∈ l → f x = Ok v' → version_le v' v).
Proof.
  destruct l as [|a l]; [done|]. intros _ Hl. simpl.
  destruct (Hl a) as [k Hk]; [by left|]. rewrite Hk. simpl.
  destruct (max_loop_Ok l a k Hk) as (c & v & -> & Hin & Hfc & Hle & Hmax).
  { intros x Hx. apply Hl. by right. }
  exists c, v. simpl. split_and!; [done| |done|].
  - destruct Hin as [->|Hin]; [by left|by right].
  - intros x v' [->|Hx]%elem_of_cons Hfx; [|by eapply Hmax].
    by assert (v' = k) as -> by congruence.
Qed.


End Max.


(** ** The run as a whole *)

Lemma main_Ok (w : World) (projects : list (string * list Project)) :
  find_all_recent_projects w = Ok projects → main w = ([success projects], 0).
Proof. unfold main. by intros ->. Qed.

Lemma main_Raise (w : World) (e : exn) :
  find_all_recent_projects w = Raise e →
  main w = ([error (exn_str e) (format_exc w e)], 1).
Proof. unfold main. by intros ->. Qed.

(** An exception while one product of the catalog is processed ends the run
    in the error envelope. *)
Lemma run_aborts (w : World) (product : ProductInfo) (e : exn) :
  product ∈ PRODUCTS → recent_projects_of w product = Raise e →
  ∃ e', find_all_recent_projects w = Raise e' ∧
        main w = ([error (exn_str e') (format_exc w e')], 1).
Proof.
  intros Hin He. destruct (traverse_Raise _ _ _ _ Hin He) as (p' & e' & _ & _ & He').
  exists e'. split; [done|by apply main_Raise].
Qed.


(** ** C8, C1: which configuration directory is selected *)

(** C8.  Among versioned candidates the resolver selects one whose version
    is maximal in the lexicographic order, and looks for the registry file
    under it; without candidates it selects nothing and returns no file. *)
Theorem latest_config_dir_maximal (w : World) (product : ProductInfo)
    (dirs : list PosixPath) :
  find_config_directories w product = Ok dirs →
  (dirs = [] →
   py_max product_version dirs = Ok None ∧
   find_latest_recent_projects_file w product = Ok None) ∧
  (dirs ≠ [] → (∀ d, d ∈ dirs → has_version_token (path_name d)) →
   ∃ config_dir v,
     py_max product_version dirs = Ok (Some config_dir) ∧
     config_dir ∈ dirs ∧ product_version config_dir = Ok v ∧
     (∀ d v', d ∈ dirs → product_version d = Ok v' → version_le v' v) ∧
     find_latest_recent_projects_file w product =
       (found ← fs_exists w (config_dir // "options" // registry_name product);
        Ok (if found : bool
            then Some (config_dir // "options" // registry_name product) else None))).
Proof.
  intros Hdirs. unfold find_latest_recent_projects_file. rewrite Hdirs. split.
  - by intros ->.
  - intros Hne Hver.
    destruct (py_max_Ok product_version dirs Hne) as (c & v & Hmax & Hin & Hv & Hle).
    { intros d Hd. by apply product_version_Ok_iff, Hver. }
    exists c, v. split_and!; try done. simpl. by rewrite Hmax.
Qed.

Lemma latest_config_dir_maximal_witness :
  ∃ config_dir v,
    py_max product_version three_dirs = Ok (Some config_dir) ∧
    config_dir ∈ three_dirs ∧ product_version config_dir = Ok v ∧
    (∀ d v', d ∈ three_dirs → product_version d = Ok v' → version_le v' v) ∧
    find_latest_recent_projects_file world_three_versions idea =
      (found ← fs_exists world_three_versions
                 (config_dir // "options" // registry_name idea);
       Ok (if found : bool
           then Some (config_dir // "options" // registry_name idea) else None)).
Proof.
  refine (proj2 (latest_config_dir_maximal world_three_versions idea three_dirs eq_refl)
            _ _); [done|].
  intros d Hd. apply (version_search_Some _ (default "" (re_search version_re (path_name d)))).
  repeat (apply elem_of_cons in Hd as [->|Hd]; [reflexivity|]).
  by apply elem_of_nil in Hd.
Defined.

Example latest_of_2023_1_and_2023_3 :
  py_max product_version [Path "c/IntelliJIdea2023.1"; Path "c/IntelliJIdea2023.3"] =
    Ok (Some (Path "c/IntelliJIdea2023.3")) ∧
  py_max product_version [Path "c/IntelliJIdea2023.3"; Path "c/IntelliJIdea2023.1"] =
    Ok (Some (Path "c/IntelliJIdea2023.3")) ∧
  py_max product_version [Path "c/IntelliJIdea2023.3"; Path "c/IntelliJIdea2024.1"] =
    Ok (Some (Path "c/IntelliJIdea2024.1")).
Proof. by repeat split. Qed.





(** ** C4, C5: the envelope *)

Lemma parse_error_propagates (w : World) (product : ProductInfo) (file : PosixPath)
    (e : exn) :
  find_latest_recent_projects_file w product = Ok (Some file) →
  etree_parse w file = Raise e →
  recent_projects_of w product = Raise e.
Proof.
  intros Hfile Hparse. unfold recent_projects_of, find_recent_projects.
  rewrite Hfile. simpl. by rewrite Hparse.
Qed.

(** C4.  An exception raised while any product of the catalog is processed
    (a registry file that cannot be read or parsed in particular) makes the
    run print the error envelope alone and exit with status 1; the exception
    reported is one raised for some product.  When no product raises, the
    run prints the success envelope alone and exits with status 0. *)
Theorem main_envelope (w : World) :
  (∀ product e,
     product ∈ PRODUCTS → recent_projects_of w product = Raise e →
     ∃ product' e',
       product' ∈ PRODUCTS ∧ recent_projects_of w product' = Raise e' ∧
       main w = ([error (exn_str e') (format_exc w e')], 1)) ∧
  (∀ product file e,
     product ∈ PRODUCTS →
     find_latest_recent_projects_file w product = Ok (Some file) →
     etree_parse w file = Raise e →
     ∃ e', main w = ([error (exn_str e') (format_exc w e')], 1)) ∧
  ((∀ product, product ∈ PRODUCTS → ∃ r, recent_projects_of w product = Ok r) →
   ∃ projects,
     find_all_recent_projects w = Ok projects ∧ main w = ([success projects], 0)).
Proof.
  split_and!.
  - intros product e Hin He.
    destruct (traverse_Raise _ _ _ _ Hin He) as (product' & e' & Hin' & He' & Hall).
    exists product', e'. split_and!; [done|done|by apply main_Raise].
  - intros product file e Hin Hfile Hparse.
    destruct (run_aborts w product e Hin) as (e' & _ & Hmain); [|by exists e'].
    by eapply parse_error_propagates.
  - intros Hall. destruct (traverse_Ok _ _ Hall) as [projects Hprojects].
    exists projects. split; [done|by apply main_Ok].
Qed.

Lemma main_envelope_witness :
  (∃ e', main world_parse_error =
           ([error (exn_str e') (format_exc world_parse_error e')], 1)) ∧
  (∃ projects,
     find_all_recent_projects world_no_dirs = Ok projects ∧
     main world_no_dirs = ([success projects], 0)).
Proof.
  split.
  - refine (proj1 (proj2 (main_envelope world_parse_error)) idea (Path idea_registry)
              (ParseError "syntax error: line 1, column 0") _ eq_refl eq_refl).
    by left.
  - refine (proj2 (proj2 (main_envelope world_no_dirs)) _).
    intros product Hin. eexists.
    repeat (apply elem_of_cons in Hin as [->|Hin]; [reflexivity|]).
    by apply elem_of_nil in Hin.
Defined.

Example main_parse_error :
  main world_parse_error =
    ([error "syntax error: line 1, column 0" "Traceback (most recent call last): ..."], 1).
Proof. by vm_compute. Qed.

(** The run prints one envelope, and the exit status tells which. *)
Lemma main_one_envelope (w : World) :
  (∃ projects, main w = ([success projects], 0)) ∨
  (∃ message traceback, main w = ([error message traceback], 1)).
Proof.
  unfold main. destruct (find_all_recent_projects w) as [projects|e]; [left|right]; eauto.
Qed.

Lemma main_success_inv (w : World) (projects : list (string * list Project)) (st : Z) :
  main w = ([success projects], st) → find_all_recent_projects w = Ok projects ∧ st = 0.
Proof.
  unfold main. destruct (find_all_recent_projects w) as [ps|e]; [|done].
  by intros [= -> <-].
Qed.

Lemma recent_projects_of_key (w : World) (product : ProductInfo)
    (r : string * list Project) :
  recent_projects_of w product = Ok r → r.1 = key product.
Proof.
  unfold recent_projects_of.
  destruct (find_latest_recent_projects_file w product) as [[file|]|]; simpl; [| |done].
  - destruct (find_recent_projects w product file); simpl; [|done]. by intros [= <-].
  - by intros [= <-].
Qed.

Lemma recent_projects_of_no_file (w : World) (product : ProductInfo) :
  find_latest_recent_projects_file w product = Ok None →
  recent_projects_of w product = Ok (key product, []).
Proof. unfold recent_projects_of. by intros ->. Qed.

Lemma find_latest_no_dirs (w : World) (product : ProductInfo) :
  find_config_directories w product = Ok [] →
  find_latest_recent_projects_file w product = Ok None.
Proof. unfold find_latest_recent_projects_file. by intros ->. Qed.

Lemma find_latest_no_registry (w : World) (product : ProductInfo)
    (dirs : list PosixPath) (config_dir : PosixPath) :
  find_config_directories w product = Ok dirs →
  py_max product_version dirs = Ok (Some config_dir) →
  fs_exists w (config_dir // "options" // registry_name product) = Ok false →
  find_latest_recent_projects_file w product = Ok None.
Proof.
  unfold find_latest_recent_projects_file, registry_name.
  intros -> Hmax Hex. simpl. rewrite Hmax. simpl. by rewrite Hex.
Qed.

(** C5.  The payload of a successful run has one pair per product of the
    catalog, in catalog order; a product without configuration directory,
    or whose selected directory has no registry file, has the empty list. *)
Theorem success_lists_every_product (w : World)
    (projects : list (string * list Project)) (st : Z) :
  main w = ([success projects], st) →
  map fst projects = map key PRODUCTS ∧
  ∀ i product,
    PRODUCTS !! i = Some product →
    ∃ ps,
      projects !! i = Some (key product, ps) ∧
      (find_latest_recent_projects_file w product = Ok None → ps = []) ∧
      (find_config_directories w product = Ok [] → ps = []) ∧
      (∀ dirs config_dir,
         find_config_directories w product = Ok dirs →
         py_max product_version dirs = Ok (Some config_dir) →
         fs_exists w (config_dir // "options" // registry_name product) = Ok false →
         ps = []).
Proof.
  intros [Hall _]%main_success_inv. split.
  - apply (traverse_Ok_map (recent_projects_of w)); [|done].
    intros product r. apply recent_projects_of_key.
  - intros i product Hi.
    destruct (traverse_Ok_lookup _ _ _ _ _ Hall Hi) as ([k ps] & Hps & Hr).
    pose proof (recent_projects_of_key _ _ _ Hr) as Hk. simpl in Hk. subst k.
    assert (Hnone : find_latest_recent_projects_file w product = Ok None → ps = []).
    { intros Hnone%recent_projects_of_no_file. congruence. }
    exists ps. split_and!; [done|done| |].
    + intros Hdirs. by apply Hnone, find_latest_no_dirs.
    + intros dirs config_dir Hdirs Hmax Hex. by eapply Hnone, find_latest_no_registry.
Qed.

Lemma success_lists_every_product_witness :
  map fst empty_payload = map key PRODUCTS ∧
  ∀ i product,
    PRODUCTS !! i = Some product →
    ∃ ps,
      empty_payload !! i = Some (key product, ps) ∧
      (find_latest_recent_projects_file world_no_dirs product = Ok None → ps = []) ∧
      (find_config_directories world_no_dirs product = Ok [] → ps = []) ∧
      (∀ dirs config_dir,
         find_config_directories world_no_dirs product = Ok dirs →
         py_max product_version dirs = Ok (Some config_dir) →
         fs_exists world_no_dirs (config_dir // "options" // registry_name product)
           = Ok false →
         ps = []).
Proof.
  exact (success_lists_every_product world_no_dirs empty_payload 0 eq_refl).
Defined.

(** ** Whitespace *)

Lemma lstrip_spec (s : string) :
  ∃ l, s = l +:+ lstrip s ∧ all_space l = true ∧
       (∀ c, first_char (lstrip s) = Some c → is_space c = false).
Proof.
  induction s as [|c s (l & Hs & Hl & Hfirst)]; simpl.
  - by exists "".
  - destruct (is_space c) eqn:Hc.
    + exists (String c l). rewrite app_cons, <- Hs. simpl. rewrite Hc. by split_and!.
    + exists "". split_and!; [done|done|]. simpl. by intros ? [= <-].
Qed.

Lemma rstrip_spec (s : string) :
  ∃ r, s = rstrip s +:+ r ∧ all_space r = true ∧
       (∀ c, last_char (rstrip s) = Some c → is_space c = false) ∧
       (∀ c, first_char (rstrip s) = Some c → first_char s = Some c).
Proof.
  induction s as [|c s (r & Hs & Hr & Hlast & _)]; simpl.
  - by exists "".
  - destruct (rstrip s) as [|c' t] eqn:Ht.
    + rewrite app_nil_l in Hs. subst r. destruct (is_space c) eqn:Hc.
      * exists (String c s). simpl. rewrite Hc. by split_and!.
      * exists s. split_and!; [done|done| |done]. simpl. by intros ? [= <-].
    + exists r. rewrite app_cons, <- Hs. by split_and!.
Qed.

(** [strip] removes exactly the surrounding whitespace. *)
Lemma strip_spec (text : string) : trimmed_of text (strip text).
Proof.
  unfold strip, trimmed_of.
  destruct (lstrip_spec text) as (l & Htext & Hl & Hfirst).
  destruct (rstrip_spec (lstrip text)) as (r & Hmid & Hr & Hlast & Hkeep).
  exists l, r. split_and!; [|done|done| |done].
  - by rewrite <- Hmid.
  - intros c Hc. by apply Hfirst, Hkeep.
Qed.

(** ** The project resolver *)

Lemma get_project_Ok (w : World) (product : ProductInfo) (path expanded : PosixPath)
    (is_file : bool) (project_name : string) :
  expanduser w path = Ok expanded →
  fs_is_file w expanded = Ok is_file →
  match fs_read_text w (name_marker path is_file) with
  | Ok text => project_name = strip text
  | Raise (FileNotFoundError _) => project_name = path_name path
  | Raise _ => False
  end →
  get_project w product path =
    Ok {| id := "jetbrains-search-provider-" +:+ key product +:+ "-" +:+ path_str expanded;
          name := project_name;
          path := path_str path;
          abspath := path_str expanded |}.
Proof.
  intros Hexp Hfile Hread. unfold get_project, name_marker in *.
  rewrite Hexp. simpl. rewrite Hfile. simpl.
  destruct (fs_read_text w _) as [text|[]]; try done; simpl; by subst project_name.
Qed.

Lemma get_project_Raise (w : World) (product : ProductInfo) (path expanded : PosixPath)
    (is_file : bool) (e : exn) :
  expanduser w path = Ok expanded →
  fs_is_file w expanded = Ok is_file →
  fs_read_text w (name_marker path is_file) = Raise e →
  (∀ m, e ≠ FileNotFoundError m) →
  get_project w product path = Raise e.
Proof.
  intros Hexp Hfile Hread Hother. unfold get_project, name_marker in *.
  rewrite Hexp. simpl. rewrite Hfile. simpl. rewrite Hread.
  destruct e; try done. by destruct (Hother msg).
Qed.

(** What a project record is made of. *)
Lemma get_project_fields (w : World) (product : ProductInfo) (recorded : PosixPath)
    (p : Project) :
  get_project w product recorded = Ok p →
  ∃ expanded,
    expanduser w recorded = Ok expanded ∧
    id p = "jetbrains-search-provider-" +:+ key product +:+ "-" +:+ path_str expanded ∧
    path p = path_str recorded ∧
    abspath p = path_str expanded.
Proof.
  unfold get_project. destruct (expanduser w recorded) as [expanded|]; [|done]. simpl.
  destruct (fs_is_file w expanded) as [is_file|]; [|done]. simpl.
  destruct (match fs_read_text w _ with Ok _ => _ | Raise _ => _ end) as [nm|]; [|done].
  simpl. intros [= <-]. by exists expanded.
Qed.

(** The name of a project, relative to the marker the code reads: the
    content of [.idea/.name] under the path as recorded (or under its parent
    when the expanded path is a regular file) without its surrounding
    whitespace when that file can be read, and the last component of the
    path as recorded when that file does not exist. *)
Theorem project_name_spec (w : World) (product : ProductInfo)
    (path expanded : PosixPath) (is_file : bool) :
  expanduser w path = Ok expanded →
  fs_is_file w expanded = Ok is_file →
  (∀ text,
     fs_read_text w ((if is_file then path_parent path else path) // ".idea" // ".name")
       = Ok text →
     ∃ p, get_project w product path = Ok p ∧
          name p = strip text ∧ trimmed_of text (name p)) ∧
  (∀ m,
     fs_read_text w ((if is_file then path_parent path else path) // ".idea" // ".name")
       = Raise (FileNotFoundError m) →
     ∃ p, get_project w product path = Ok p ∧ name p = path_name path).
Proof.
  intros Hexp Hfile. split.
  - intros text Hread. eexists. split_and!.
    + apply (get_project_Ok w product path expanded is_file (strip text) Hexp Hfile).
      unfold name_marker. by rewrite Hread.
    + done.
    + apply strip_spec.
  - intros m Hread. eexists. split.
    + apply (get_project_Ok w product path expanded is_file (path_name path) Hexp Hfile).
      unfold name_marker. by rewrite Hread.
    + done.
Qed.

Lemma project_name_spec_witness :
  (∀ text,
     fs_read_text world_two_layouts (Path "/home/u/x" // ".idea" // ".name") = Ok text →
     ∃ p, get_project world_two_layouts idea (Path "/home/u/x") = Ok p ∧
          name p = strip text ∧ trimmed_of text (name p)) ∧
  (∀ m,
     fs_read_text world_two_layouts (Path "/home/u/x" // ".idea" // ".name")
       = Raise (FileNotFoundError m) →
     ∃ p, get_project world_two_layouts idea (Path "/home/u/x") = Ok p ∧
          name p = path_name (Path "/home/u/x")).
Proof.
  exact (project_name_spec world_two_layouts idea (Path "/home/u/x") (Path "/home/u/x")
           false eq_refl eq_refl).
Defined.

Example project_names :
  get_project world_two_layouts idea (Path "/home/u/x") =
    Ok {| id := "jetbrains-search-provider-idea-/home/u/x"; name := "My App";
          path := "/home/u/x"; abspath := "/home/u/x" |} ∧
  get_project world_two_layouts idea (Path "/home/u/z") =
    Ok {| id := "jetbrains-search-provider-idea-/home/u/z"; name := "z";
          path := "/home/u/z"; abspath := "/home/u/z" |} ∧
  get_project world_two_layouts idea (Path idea_registry) =
    Ok {| id := "jetbrains-search-provider-idea-" +:+ idea_registry;
          name := "recentProjects.xml";
          path := idea_registry; abspath := idea_registry |}.
Proof. by vm_compute. Qed.

(** The marker is looked up under the path as recorded: for [~/x] that is
    the relative path [~/x/.idea/.name], which the marker of [/home/u/x]
    does not answer. *)
Example home_relative_name :
  name_marker (Path "~/x") false = Path "~/x/.idea/.name" ∧
  get_project world_two_layouts idea (Path "~/x") =
    Ok {| id := "jetbrains-search-provider-idea-/home/u/x"; name := "x";
          path := "~/x"; abspath := "/home/u/x" |}.
Proof. by vm_compute. Qed.

(** C3, at a home-relative path.  In [world_two_layouts] the recorded path
    [~/x] expands to the existing directory [/home/u/x]; the project root
    holds the marker [/home/u/x/.idea/.name] with the content [My App] and
    a newline, whose trimmed form is [My App].  [get_project] expands the
    path for the file test, for [id] and for [abspath], but builds the
    marker path from the path as recorded: it reads [~/x/.idea/.name],
    which does not exist, and names the project [x]. *)
Theorem home_relative_marker_ignored :
  expanduser world_two_layouts (Path "~/x") = Ok (Path "/home/u/x") ∧
  fs_exists world_two_layouts (Path "/home/u/x") = Ok true ∧
  fs_is_file world_two_layouts (Path "/home/u/x") = Ok false ∧
  fs_read_text world_two_layouts (Path "/home/u/x" // ".idea" // ".name")
    = Ok ("My App" +:+ newline) ∧
  strip ("My App" +:+ newline) = "My App" ∧
  name_marker (Path "~/x") false = Path "~/x/.idea/.name" ∧
  fs_read_text world_two_layouts (name_marker (Path "~/x") false)
    = Raise (FileNotFoundError "[Errno 2] No such file or directory") ∧
  get_project world_two_layouts idea (Path "~/x") =
    Ok {| id := "jetbrains-search-provider-idea-/home/u/x"; name := "x";
          path := "~/x"; abspath := "/home/u/x" |} ∧
  get_project world_two_layouts idea (Path "/home/u/x") =
    Ok {| id := "jetbrains-search-provider-idea-/home/u/x"; name := "My App";
          path := "/home/u/x"; abspath := "/home/u/x" |}.
Proof. split_and!; by vm_compute. Qed.

(** ** Exceptions below [main] *)

(** The loop over the recorded paths raises as soon as the resolver raises
    for a path that exists. *)
Lemma yield_projects_Raise (w : World) (product : ProductInfo) (paths : list PosixPath)
    (path expanded : PosixPath) (e : exn) :
  path ∈ paths →
  expanduser w path = Ok expanded →
  fs_exists w expanded = Ok true →
  get_project w product path = Raise e →
  ∃ e', yield_projects w product paths = Raise e'.
Proof.
  intros Hin Hexp Hex Hget. induction paths as [|a paths IH]; [by apply elem_of_nil in Hin|].
  simpl. destruct (expanduser w a) as [ea|] eqn:Hea; [|by eexists]. simpl.
  destruct (fs_exists w ea) as [found|] eqn:Hfa; [|by eexists]. simpl.
  apply elem_of_cons in Hin as [->|Hin].
  - assert (ea = expanded) as -> by congruence.
    assert (found = true) as -> by congruence.
    rewrite Hget. by eexists.
  - destruct (IH Hin) as [e' He']. destruct found; [|by eexists].
    destruct (get_project w product a); [|by eexists]. simpl. rewrite He'. by eexists.
Qed.

Lemma resolver_Raise_aborts (w : World) (product : ProductInfo) (file : PosixPath)
    (document : Element) (paths : gset PosixPath) (path expanded : PosixPath) (e : exn) :
  product ∈ PRODUCTS →
  find_latest_recent_projects_file w product = Ok (Some file) →
  etree_parse w file = Ok document →
  recent_paths document = Ok paths →
  path ∈ paths →
  expanduser w path = Ok expanded →
  fs_exists w expanded = Ok true →
  get_project w product path = Raise e →
  ∃ e', main w = ([error (exn_str e') (format_exc w e')], 1).
Proof.
  intros Hin Hfile Hdoc Hpaths Hpath Hexp Hex Hget.
  destruct (yield_projects_Raise w product (elements paths) path expanded e)
    as [e1 He1]; [by apply elem_of_elements|done..|].
  destruct (run_aborts w product e1 Hin) as (e' & _ & Hmain); [|by exists e'].
  unfold recent_projects_of, find_recent_projects.
  rewrite Hfile. simpl. rewrite Hdoc. simpl. rewrite Hpaths. simpl. by rewrite He1.
Qed.

Lemma recent_paths_Ok_intro (document : Element) (legacy modern : list PosixPath) :
  traverse (recorded_path "value") (findall document legacy_selector) = Ok legacy →
  traverse (recorded_path "key") (findall document modern_selector) = Ok modern →
  recent_paths document = Ok (list_to_set legacy ∪ list_to_set modern).
Proof. unfold recent_paths. by intros -> ->. Qed.

(** C10.  Reading the name marker: a [FileNotFoundError] gives the last
    component of the path; every other exception of the read leaves the
    resolver and, for a recorded existing path of a catalog product, ends
    the run in the error envelope. *)
Theorem marker_read_errors (w : World) (product : ProductInfo)
    (path expanded : PosixPath) (is_file : bool) (e : exn) :
  expanduser w path = Ok expanded →
  fs_is_file w expanded = Ok is_file →
  fs_read_text w ((if is_file then path_parent path else path) // ".idea" // ".name")
    = Raise e →
  ((∃ m, e = FileNotFoundError m) →
   ∃ p, get_project w product path = Ok p ∧ name p = path_name path) ∧
  ((∀ m, e ≠ FileNotFoundError m) →
   get_project w product path = Raise e ∧
   ∀ file document paths,
     product ∈ PRODUCTS →
     find_latest_recent_projects_file w product = Ok (Some file) →
     etree_parse w file = Ok document →
     recent_paths document = Ok paths →
     path ∈ paths →
     fs_exists w expanded = Ok true →
     ∃ e', main w = ([error (exn_str e') (format_exc w e')], 1)).
Proof.
  intros Hexp Hfile Hread. split.
  - intros [m ->]. eexists. split.
    + apply (get_project_Ok w product path expanded is_file (path_name path) Hexp Hfile).
      unfold name_marker. by rewrite Hread.
    + done.
  - intros Hother.
    assert (get_project w product path = Raise e) as Hget
      by (by eapply get_project_Raise).
    split; [done|]. intros file document paths Hin Hlatest Hdoc Hpaths Hpath Hex.
    by eapply resolver_Raise_aborts.
Qed.

Lemma marker_read_errors_witness :
  get_project world_unreadable_marker idea (Path "/home/u/x") =
    Raise (PermissionError "[Errno 13] Permission denied: '/home/u/x/.idea/.name'") ∧
  ∃ e', main world_unreadable_marker =
          ([error (exn_str e') (format_exc world_unreadable_marker e')], 1).
Proof.
  destruct (proj2 (marker_read_errors world_unreadable_marker idea (Path "/home/u/x")
                     (Path "/home/u/x") false
                     (PermissionError "[Errno 13] Permission denied: '/home/u/x/.idea/.name'")
                     eq_refl eq_refl eq_refl)) as [Hget Hrun]; [done|].
  split; [exact Hget|].
  refine (Hrun (Path idea_registry) two_layouts _ _ eq_refl eq_refl
            (recent_paths_Ok_intro two_layouts [Path "~/x"; Path "/home/u/y"]
               [Path "/home/u/x"; Path "~/x"] eq_refl eq_refl) _ eq_refl).
  - by left.
  - apply elem_of_union. right. apply elem_of_list_to_set. by left.
Defined.

Example marker_errors_that_abort :
  ∀ e, e ∈ [PermissionError "denied"; IsADirectoryError "is a directory";
            NotADirectoryError "not a directory"; UnicodeDecodeError "invalid start byte";
            OSError "input/output error"] →
  get_project
    (sample_world [] ["/home/u/x"] [] [("/home/u/x/.idea/.name", Raise e)]
       (Raise (ParseError "unused")))
    idea (Path "/home/u/x") = Raise e.
Proof.
  intros e He.
  repeat (apply elem_of_cons in He as [->|He]; [reflexivity|]).
  by apply elem_of_nil in He.
Qed.

(** ** C9: entries without the expected attribute *)

Lemma recorded_path_Raise (k : string) (el : Element) :
  attrib el !! k = None → recorded_path k el = Raise (KeyError k).
Proof. unfold recorded_path, attrib_get. by intros ->. Qed.

Lemma recorded_path_Ok (k : string) (el : Element) (v : string) :
  attrib el !! k = Some v →
  recorded_path k el = Ok (Path (str_replace v "$USER_HOME$" "~")).
Proof. unfold recorded_path, attrib_get. by intros ->. Qed.

Lemma recorded_path_inv (k : string) (el : Element) (e : exn) :
  recorded_path k el = Raise e → e = KeyError k ∧ attrib el !! k = None.
Proof.
  unfold recorded_path, attrib_get. destruct (attrib el !! k); simpl; [done|].
  by intros [= <-].
Qed.

Lemma recorded_paths_Raise (k : string) (els : list Element) (el : Element) :
  el ∈ els → attrib el !! k = None →
  traverse (recorded_path k) els = Raise (KeyError k).
Proof.
  intros Hin Hnone.
  destruct (traverse_Raise (recorded_path k) els el (KeyError k) Hin)
    as (el' & e' & _ & He' & ->); [by apply recorded_path_Raise|].
  by apply recorded_path_inv in He' as [-> _].
Qed.

Lemma recorded_paths_Ok (k : string) (els : list Element) :
  (∀ el, el ∈ els → is_Some (attrib el !! k)) →
  ∃ ps, traverse (recorded_path k) els = Ok ps ∧
        ∀ p, p ∈ ps ↔ ∃ el v, el ∈ els ∧ attrib el !! k = Some v ∧
                              p = Path (str_replace v "$USER_HOME$" "~").
Proof.
  induction els as [|a els IH]; intros Hall; simpl.
  - exists []. split; [done|]. intros p. split; [by intros ?%elem_of_nil|].
    by intros (el & v & ?%elem_of_nil & _).
  - destruct (Hall a) as [v Hv]; [by left|]. rewrite (recorded_path_Ok _ _ _ Hv). simpl.
    destruct IH as (ps & -> & Hps); [intros el Hel; apply Hall; by right|]. simpl.
    eexists. split; [done|]. intros p. rewrite elem_of_cons, Hps. split.
    + intros [->|(el & v' & Hel & Hv' & ->)].
      * exists a, v. split_and!; [by left|done|done].
      * exists el, v'. split_and!; [by right|done|done].
    + intros (el & v' & [->|Hel]%elem_of_cons & Hv' & ->).
      * left. congruence.
      * right. by exists el, v'.
Qed.

Lemma recent_paths_Raise_aborts (w : World) (product : ProductInfo) (file : PosixPath)
    (document : Element) (e : exn) :
  product ∈ PRODUCTS →
  find_latest_recent_projects_file w product = Ok (Some file) →
  etree_parse w file = Ok document →
  recent_paths document = Raise e →
  recent_projects_of w product = Raise e ∧
  ∃ e', main w = ([error (exn_str e') (format_exc w e')], 1).
Proof.
  intros Hin Hfile Hdoc Hpaths.
  assert (recent_projects_of w product = Raise e) as Hraise.
  { unfold recent_projects_of, find_recent_projects.
    rewrite Hfile. simpl. rewrite Hdoc. simpl. by rewrite Hpaths. }
  split; [done|]. destruct (run_aborts w product e Hin Hraise) as (e' & _ & Hmain).
  by exists e'.
Qed.

(** C9.  An element selected for the old layout without [value], or one
    selected for the new layout without [key], is not skipped: building the
    set of paths raises the [KeyError] of the missing attribute, and for a
    catalog product with that registry the run ends in the error envelope. *)
Theorem missing_attribute_raises (document : Element) (el : Element) :
  (el ∈ findall document legacy_selector ∧ attrib el !! "value" = None) ∨
  (el ∈ findall document modern_selector ∧ attrib el !! "key" = None) →
  ∃ k,
    (k = "value" ∨ k = "key") ∧
    recent_paths document = Raise (KeyError k) ∧
    ((∃ el', el' ∈ findall document legacy_selector ∧ attrib el' !! "value" = None) →
     k = "value") ∧
    ∀ w product file,
      product ∈ PRODUCTS →
      find_latest_recent_projects_file w product = Ok (Some file) →
      etree_parse w file = Ok document →
      recent_projects_of w product = Raise (KeyError k) ∧
      ∃ e', main w = ([error (exn_str e') (format_exc w e')], 1).
Proof.
  intros Hmissing.
  assert (∃ k, (k = "value" ∨ k = "key") ∧ recent_paths document = Raise (KeyError k) ∧
               ((∃ el', el' ∈ findall document legacy_selector ∧
                        attrib el' !! "value" = None) → k = "value"))
    as (k & Hk & Hraise & Hfirst).
  { unfold recent_paths.
    destruct (traverse (recorded_path "value") (findall document legacy_selector))
      as [legacy|e] eqn:Hlegacy.
    - destruct Hmissing as [[Hin Hnone]|[Hin Hnone]].
      + rewrite (recorded_paths_Raise _ _ _ Hin Hnone) in Hlegacy. done.
      + exists "key". simpl. rewrite (recorded_paths_Raise _ _ _ Hin Hnone).
        split_and!; [by right|done|].
        intros (el' & Hin' & Hnone').
        by rewrite (recorded_paths_Raise _ _ _ Hin' Hnone') in Hlegacy.
    - exists "value". split_and!; [by left| |done]. simpl.
      assert (e = KeyError "value") as ->; [|done].
      clear Hmissing. revert e Hlegacy.
      induction (findall document legacy_selector) as [|a els IH]; intros e; simpl; [done|].
      destruct (recorded_path "value" a) as [p|e1] eqn:Ha; simpl.
      + destruct (traverse (recorded_path "value") els); simpl; [done|].
        intros [= <-]. by apply IH.
      + intros [= <-]. by apply recorded_path_inv in Ha as [-> _]. }
  exists k. split_and!; [done..|].
  intros w product file Hin Hfile Hdoc. by eapply recent_paths_Raise_aborts.
Qed.

Lemma missing_attribute_raises_witness :
  ∃ k,
    (k = "value" ∨ k = "key") ∧
    recent_paths missing_value = Raise (KeyError k) ∧
    ((∃ el', el' ∈ findall missing_value legacy_selector ∧ attrib el' !! "value" = None) →
     k = "value") ∧
    ∀ w product file,
      product ∈ PRODUCTS →
      find_latest_recent_projects_file w product = Ok (Some file) →
      etree_parse w file = Ok missing_value →
      recent_projects_of w product = Raise (KeyError k) ∧
      ∃ e', main w = ([error (exn_str e') (format_exc w e')], 1).
Proof.
  refine (missing_attribute_raises missing_value (el "option" [] []) _).
  left. split; [|done]. right. by left.
Defined.

Example main_missing_value :
  main world_missing_value =
    ([error "'value'" "Traceback (most recent call last): ..."], 1).
Proof. by vm_compute. Qed.

(** ** C2: identifiers *)

Lemma str_mem_app (c : ascii) (s t : string) :
  str_mem c (s +:+ t) = str_mem c s || str_mem c t.
Proof.
  induction s as [|a s IH]; [done|]. rewrite app_cons. simpl. by rewrite IH, orb_assoc.
Qed.

(** Two strings cut at the first occurrence of a character agree part by
    part. *)
Lemma app_inv_sep (c : ascii) (a b x y : string) :
  str_mem c a = false → str_mem c b = false →
  a +:+ String c x = b +:+ String c y → a = b ∧ x = y.
Proof.
  revert b. induction a as [|a0 a IH]; intros [|b0 b]; rewrite ?app_nil_l, ?app_cons; simpl.
  - by intros _ _ [= ->].
  - intros _ Hb [= <- _]. by rewrite bool_decide_eq_true_2 in Hb.
  - intros Ha _ [= -> _]. by rewrite bool_decide_eq_true_2 in Ha.
  - intros [_ Ha]%orb_false_iff [_ Hb]%orb_false_iff [= -> H].
    by destruct (IH b Ha Hb H) as [-> ->].
Qed.

Lemma app_inj_r (s s' t : string) : s +:+ t = s' +:+ t → s = s'.
Proof.
  revert s'. induction s as [|a s IH]; intros [|a' s'] H; rewrite ?app_nil_l, ?app_cons in H.
  - done.
  - apply (f_equal String.length) in H. simpl in H. rewrite length_app in H. lia.
  - apply (f_equal String.length) in H. simpl in H. rewrite length_app in H. lia.
  - injection H as -> H. by rewrite (IH s' H).
Qed.

Lemma starts_with_slash (s : string) :
  starts_with "/" s = true → ∃ t, s = String "/" t.
Proof.
  destruct s as [|a s]; [done|]. simpl.
  destruct (decide ("/"%char = a)) as [<-|]; [eauto|done].
Qed.

(** The identifier determines the product key and the expanded path, as
    long as the key has no slash and the expanded path starts with one. *)
Lemma project_id_inj (key1 key2 abs1 abs2 : string) :
  str_mem "/" key1 = false → str_mem "/" key2 = false →
  starts_with "/" abs1 = true → starts_with "/" abs2 = true →
  "jetbrains-search-provider-" +:+ key1 +:+ "-" +:+ abs1 =
  "jetbrains-search-provider-" +:+ key2 +:+ "-" +:+ abs2 →
  key1 = key2 ∧ abs1 = abs2.
Proof.
  intros H1 H2 [t1 ->]%starts_with_slash [t2 ->]%starts_with_slash Heq.
  apply (inj (String.app _)) in Heq. rewrite <- !app_assoc in Heq.
  apply app_inv_sep in Heq as [Hk ->].
  - split; [|done]. by apply app_inj_r in Hk.
  - by rewrite str_mem_app, H1.
  - by rewrite str_mem_app, H2.
Qed.

Lemma catalog_keys_no_slash (product : ProductInfo) :
  product ∈ PRODUCTS → str_mem "/" (key product) = false.
Proof.
  intros Hin. repeat (apply elem_of_cons in Hin as [->|Hin]; [reflexivity|]).
  by apply elem_of_nil in Hin.
Qed.

(** The keys of the catalog are pairwise different. *)
Lemma catalog_key_inj (product1 product2 : ProductInfo) :
  product1 ∈ PRODUCTS → product2 ∈ PRODUCTS →
  key product1 = key product2 → product1 = product2.
Proof.
  intros H1 H2.
  repeat (apply elem_of_cons in H1 as [->|H1]);
    try (by apply elem_of_nil in H1);
    repeat (apply elem_of_cons in H2 as [->|H2]);
    try (by apply elem_of_nil in H2); by intros [=].
Qed.

(** Against C2 as worded.  Two recorded paths of one registry get the same
    identifier when they
    expand to the same path: the run on [world_two_layouts] returns two
    records for IDEA, for [/home/u/x] and for [~/x], with one [id]. *)
Lemma distinct_paths_same_id :
  main world_two_layouts =
    ([success
        [("idea",
          [{| id := "jetbrains-search-provider-idea-/home/u/x"; name := "My App";
              path := "/home/u/x"; abspath := "/home/u/x" |};
           {| id := "jetbrains-search-provider-idea-/home/u/x"; name := "x";
              path := "~/x"; abspath := "/home/u/x" |}]);
         ("idea-ce", []); ("webstorm", []); ("clion", []); ("goland", []);
         ("pycharm", []); ("phpstorm", []); ("rider", []); ("android-studio", [])]], 0) ∧
  Path "/home/u/x" ≠ Path "~/x" ∧
  get_project world_two_layouts idea (Path "/home/u/x") =
    Ok {| id := "jetbrains-search-provider-idea-/home/u/x"; name := "My App";
          path := "/home/u/x"; abspath := "/home/u/x" |} ∧
  get_project world_two_layouts idea (Path "~/x") =
    Ok {| id := "jetbrains-search-provider-idea-/home/u/x"; name := "x";
          path := "~/x"; abspath := "/home/u/x" |}.
Proof. split_and!; [by vm_compute|by intros [=]|by vm_compute..]. Qed.

(** A relative recorded path can even make two products collide. *)
Example relative_path_same_id :
  id <$> (match get_project world_two_layouts idea (Path "ce-/x") with
          | Ok p => Some p | Raise _ => None end) =
  id <$> (match get_project world_two_layouts
                  {| key := "idea-ce"; config_glob := "IdeaIC*"; base_dir := "JetBrains" |}
                  (Path "/x") with
          | Ok p => Some p | Raise _ => None end) ∧
  id <$> (match get_project world_two_layouts idea (Path "ce-/x") with
          | Ok p => Some p | Raise _ => None end) =
  Some "jetbrains-search-provider-idea-ce-/x".
Proof. by vm_compute. Qed.

(** C2, as the code has it.  For products of the catalog and recorded paths
    whose expansion is absolute, two project records have the same [id]
    exactly when they belong to the same product and to the same expanded
    path. *)
Theorem project_id_injective (w : World) (product1 product2 : ProductInfo)
    (path1 path2 : PosixPath) (p1 p2 : Project) :
  product1 ∈ PRODUCTS → product2 ∈ PRODUCTS →
  get_project w product1 path1 = Ok p1 →
  get_project w product2 path2 = Ok p2 →
  starts_with "/" (abspath p1) = true →
  starts_with "/" (abspath p2) = true →
  (id p1 = id p2 ↔ product1 = product2 ∧ abspath p1 = abspath p2).
Proof.
  intros Hin1 Hin2 (e1 & _ & Hid1 & _ & Habs1)%get_project_fields
    (e2 & _ & Hid2 & _ & Habs2)%get_project_fields Hroot1 Hroot2.
  rewrite Hid1, Hid2, <- Habs1, <- Habs2. split.
  - intros [Hk Ha]%project_id_inj; try done; try by apply catalog_keys_no_slash.
    split; [by apply catalog_key_inj|done].
  - by intros [-> ->].
Qed.

Lemma project_id_injective_witness :
  id {| id := "jetbrains-search-provider-idea-/home/u/x"; name := "My App";
        path := "/home/u/x"; abspath := "/home/u/x" |} =
  id {| id := "jetbrains-search-provider-idea-/home/u/x"; name := "x";
        path := "~/x"; abspath := "/home/u/x" |} ↔
  idea = idea ∧
  abspath {| id := "jetbrains-search-provider-idea-/home/u/x"; name := "My App";
             path := "/home/u/x"; abspath := "/home/u/x" |} =
  abspath {| id := "jetbrains-search-provider-idea-/home/u/x"; name := "x";
             path := "~/x"; abspath := "/home/u/x" |}.
Proof.
  refine (project_id_injective world_two_layouts idea idea (Path "/home/u/x") (Path "~/x")
            _ _ _ _ eq_refl eq_refl eq_refl eq_refl); by left.
Defined.

(** ** C6: the set of recorded paths *)

Lemma starts_with_app (old s : string) : starts_with old (old +:+ s) = true.
Proof.
  induction old as [|a old IH]; [done|]. rewrite app_cons. simpl.
  by rewrite decide_True.
Qed.

Lemma starts_with_inv (old s : string) :
  starts_with old s = true → ∃ s', s = old +:+ s'.
Proof.
  revert s. induction old as [|a old IH]; intros s; [by exists s|].
  destruct s as [|b s]; [done|]. simpl.
  destruct (decide (a = b)) as [->|]; [|done].
  intros [s' ->]%IH. by exists s'.
Qed.

Lemma replace_from_skip (old new u s : string) :
  replace_from old new (String.length u) (u +:+ s) = replace_from old new O s.
Proof. induction u as [|a u IH]; [done|]. rewrite app_cons. simpl. apply IH. Qed.

Lemma str_replace_nil (old new : string) : str_replace "" old new = "".
Proof. done. Qed.

Lemma str_replace_hit (old new s : string) :
  old ≠ "" → str_replace (old +:+ s) old new = new +:+ str_replace s old new.
Proof.
  intros Hold. destruct old as [|a old]; [done|].
  unfold str_replace. rewrite app_cons.
  change (replace_from (String a old) new O (String a (old +:+ s)))
    with (if starts_with (String a old) (String a (old +:+ s))
          then new +:+ replace_from (String a old) new
                         (Nat.pred (String.length (String a old))) (old +:+ s)
          else String a (replace_from (String a old) new O (old +:+ s))).
  rewrite <- app_cons, starts_with_app. simpl Nat.pred.
  by rewrite replace_from_skip.
Qed.

Lemma str_replace_skip (old new : string) (c : ascii) (s : string) :
  starts_with old (String c s) = false →
  str_replace (String c s) old new = String c (str_replace s old new).
Proof. unfold str_replace. simpl. by intros ->. Qed.

(** [str.replace] is the replacement from the left. *)
Lemma str_replace_spec (old new s t : string) :
  old ≠ "" → replaced old new s t ↔ t = str_replace s old new.
Proof.
  intros Hold. split.
  - induction 1 as [|s t _ ->|c s t Hno _ ->].
    + done.
    + by rewrite str_replace_hit.
    + by rewrite str_replace_skip.
  - intros ->. remember (String.length s) as n eqn:Hn.
    revert s Hn. induction (lt_wf n) as [n _ IH]. intros s ->.
    destruct s as [|c s]; [constructor|].
    destruct (starts_with old (String c s)) eqn:Hstart.
    + apply starts_with_inv in Hstart as [s' Hs']. rewrite Hs'.
      rewrite str_replace_hit by done. constructor.
      apply (IH (String.length s')); [|done].
      apply (f_equal String.length) in Hs'. rewrite length_app in Hs'.
      destruct old; [done|]. simpl in *. lia.
    + rewrite str_replace_skip by done. constructor; [done|].
      apply (IH (String.length s)); [simpl; lia|done].
Qed.

Lemma recorded_as_iff (v : string) (p : PosixPath) :
  recorded_as v p ↔ p = Path (str_replace v "$USER_HOME$" "~").
Proof.
  unfold recorded_as. split.
  - intros (t & Ht%str_replace_spec & ->); [by subst|done].
  - intros ->. eexists. split; [by apply str_replace_spec|done].
Qed.

Lemma Element_ind' (P : Element → Prop) :
  (∀ t a cs, Forall P cs → P (Elem t a cs)) → ∀ e, P e.
Proof.
  intros H. fix IH 1. intros [t a cs]. apply H.
  induction cs as [|c cs IHcs]; constructor; [apply IH|apply IHcs].
Qed.

Lemma elem_of_flat_map {A B : Type} (f : A → list B) (l : list A) (y : B) :
  y ∈ flat_map f l ↔ ∃ x, x ∈ l ∧ y ∈ f x.
Proof.
  rewrite list_elem_of_In, in_flat_map. split.
  - intros (x & Hx & Hy). exists x. by rewrite !list_elem_of_In.
  - intros (x & Hx & Hy). exists x. by rewrite <- !list_elem_of_In.
Qed.

(** [e.iter()] yields [e] and what is below it. *)
Lemma elem_iter_spec (e d : Element) : d ∈ elem_iter e ↔ d = e ∨ below d e.
Proof.
  revert d. induction e as [t a cs IH] using Element_ind'. intros d.
  rewrite Forall_forall in IH.
  cbn [elem_iter]. rewrite elem_of_cons, elem_of_flat_map. split.
  - intros [->|(c & Hc & Hd)]; [by left|right].
    apply (IH c Hc) in Hd as [->|Hd]; [by apply below_child|by eapply below_deeper].
  - intros [->|Hbelow]; [by left|right].
    inversion Hbelow as [d' e' Hc|d' c e' Hdc Hc]; subst; simpl in Hc.
    + exists d. split; [done|]. apply (IH d Hc). by left.
    + exists c. split; [done|]. apply (IH c Hc). by right.
Qed.

Lemma descendants_spec (e d : Element) :
  d ∈ flat_map elem_iter (children e) ↔ below d e.
Proof.
  rewrite elem_of_flat_map. split.
  - intros (c & Hc & [->|Hd]%elem_iter_spec);
      [by apply below_child|by eapply below_deeper].
  - intros Hbelow. inversion Hbelow as [d' e' Hc|d' c e' Hdc Hc]; subst.
    + exists d. split; [done|]. apply elem_iter_spec. by left.
    + exists c. split; [done|]. apply elem_iter_spec. by right.
Qed.

Lemma elem_of_select_child (t : string) (res : list Element) (el : Element) :
  el ∈ select (Child t) res ↔ ∃ p, p ∈ res ∧ el ∈ children p ∧ tag el = t.
Proof.
  cbn [select]. rewrite elem_of_flat_map. split.
  - intros (p & Hp & [Ht Hel]%list_elem_of_filter). by exists p.
  - intros (p & Hp & Hel & Ht). exists p. split; [done|]. by apply list_elem_of_filter.
Qed.

Lemma elem_of_select_descendant (t : string) (res : list Element) (el : Element) :
  el ∈ select (Descendant t) res ↔ ∃ p, p ∈ res ∧ below el p ∧ tag el = t.
Proof.
  cbn [select]. rewrite elem_of_flat_map. split.
  - intros (p & Hp & [Ht Hel%descendants_spec]%list_elem_of_filter). by exists p.
  - intros (p & Hp & Hel & Ht). exists p. split; [done|].
    apply list_elem_of_filter. split; [done|]. by apply descendants_spec.
Qed.

Lemma elem_of_select_attr (k v : string) (res : list Element) (el : Element) :
  el ∈ select (AttrEq k v) res ↔ el ∈ res ∧ attrib el !! k = Some v.
Proof. cbn [select]. rewrite list_elem_of_filter. tauto. Qed.

(** [findall] with the selector of the old layout. *)
Lemma findall_legacy (document el : Element) :
  el ∈ findall document legacy_selector ↔ legacy_entry document el.
Proof.
  unfold findall, legacy_selector, legacy_entry. cbn [foldl].
  change (select Self [document]) with [document]. split.
  - intros (l & (o & [Ho Hname]%elem_of_select_attr & Hl & Htl)%elem_of_select_child
              & Hel & Htel)%elem_of_select_child.
    apply elem_of_select_descendant in Ho as (r & ->%list_elem_of_singleton & Ho & Hto).
    by exists o, l.
  - intros (o & l & Ho & Hto & Hname & Hl & Htl & Hel & Htel).
    apply elem_of_select_child. exists l. split_and!; [|done..].
    apply elem_of_select_child. exists o. split_and!; [|done..].
    apply elem_of_select_attr. split; [|done].
    apply elem_of_select_descendant. exists document.
    split_and!; [by apply list_elem_of_singleton|done..].
Qed.

(** [findall] with the selector of the layout since IDEA 2020.3. *)
Lemma findall_modern (document el : Element) :
  el ∈ findall document modern_selector ↔ modern_entry document el.
Proof.
  unfold findall, modern_selector, modern_entry. cbn [foldl].
  change (select Self [document]) with [document]. split.
  - intros (m & (o' & [(o & [Hc Hcn]%elem_of_select_attr & Ho & Hto)%elem_of_select_child
                         Hon]%elem_of_select_attr & Hm & Htm)%elem_of_select_child
              & Hel & Htel)%elem_of_select_child.
    apply elem_of_select_descendant in Hc as (r & ->%list_elem_of_singleton & Hc & Htc).
    by exists o, o', m.
  - intros (c & o & m & Hc & Htc & Hcn & Ho & Hto & Hon & Hm & Htm & Hel & Htel).
    apply elem_of_select_child. exists m. split_and!; [|done..].
    apply elem_of_select_child. exists o. split_and!; [|done..].
    apply elem_of_select_attr. split; [|done].
    apply elem_of_select_child. exists c. split_and!; [|done..].
    apply elem_of_select_attr. split; [|done].
    apply elem_of_select_descendant. exists document.
    split_and!; [by apply list_elem_of_singleton|done..].
Qed.

Lemma recent_paths_Ok (document : Element) :
  (∀ el, legacy_entry document el → is_Some (attrib el !! "value")) →
  (∀ el, modern_entry document el → is_Some (attrib el !! "key")) →
  ∃ legacy modern : gset PosixPath,
    recent_paths document = Ok (legacy ∪ modern) ∧
    (∀ p, p ∈ legacy ↔
          ∃ el v, legacy_entry document el ∧ attrib el !! "value" = Some v ∧
                  recorded_as v p) ∧
    (∀ p, p ∈ modern ↔
          ∃ el v, modern_entry document el ∧ attrib el !! "key" = Some v ∧
                  recorded_as v p).
Proof.
  intros Hlegacy Hmodern.
  destruct (recorded_paths_Ok "value" (findall document legacy_selector))
    as (l1 & Hl1 & Hin1); [intros el Hel; by apply Hlegacy, findall_legacy|].
  destruct (recorded_paths_Ok "key" (findall document modern_selector))
    as (l2 & Hl2 & Hin2); [intros el Hel; by apply Hmodern, findall_modern|].
  exists (list_to_set l1), (list_to_set l2).
  split_and!; [by apply recent_paths_Ok_intro| |].
  - intros p. rewrite elem_of_list_to_set, Hin1. split.
    + intros (el & v & Hel%findall_legacy & Hv & ->).
      exists el, v. split_and!; [done..|by apply recorded_as_iff].
    + intros (el & v & Hel%findall_legacy & Hv & ->%recorded_as_iff). by exists el, v.
  - intros p. rewrite elem_of_list_to_set, Hin2. split.
    + intros (el & v & Hel%findall_modern & Hv & ->).
      exists el, v. split_and!; [done..|by apply recorded_as_iff].
    + intros (el & v & Hel%findall_modern & Hv & ->%recorded_as_iff). by exists el, v.
Qed.

(** C6.  For a document whose selected elements carry their attribute, the
    set [paths] is the union of the paths recorded in the old layout
    ([value] of the selected [option] elements) and in the new layout ([key]
    of the selected [entry] elements), each with [$USER_HOME$] replaced by
    [~]; the set is walked without repetition, and a layout without
    elements contributes nothing. *)
Theorem recent_paths_union (document : Element) :
  (∀ el, legacy_entry document el → is_Some (attrib el !! "value")) →
  (∀ el, modern_entry document el → is_Some (attrib el !! "key")) →
  ∃ legacy modern paths : gset PosixPath,
    recent_paths document = Ok paths ∧
    paths = legacy ∪ modern ∧
    (∀ p, p ∈ legacy ↔
          ∃ el v, legacy_entry document el ∧ attrib el !! "value" = Some v ∧
                  recorded_as v p) ∧
    (∀ p, p ∈ modern ↔
          ∃ el v, modern_entry document el ∧ attrib el !! "key" = Some v ∧
                  recorded_as v p) ∧
    NoDup (elements paths) ∧
    (∀ p, p ∈ elements paths ↔ p ∈ legacy ∨ p ∈ modern) ∧
    ((∀ el, ¬ legacy_entry document el) → paths = modern) ∧
    ((∀ el, ¬ modern_entry document el) → paths = legacy) ∧
    ((∀ el, ¬ legacy_entry document el) → (∀ el, ¬ modern_entry document el) →
     paths = ∅).
Proof.
  intros Hlegacy Hmodern.
  destruct (recent_paths_Ok document Hlegacy Hmodern)
    as (legacy & modern & Hpaths & Hin1 & Hin2).
  exists legacy, modern, (legacy ∪ modern).
  assert (Hno1 : (∀ el, ¬ legacy_entry document el) → legacy = ∅).
  { intros Hno. apply set_eq. intros p. rewrite Hin1, elem_of_empty.
    split; [|done]. intros (el & v & Hel & _). by apply (Hno el). }
  assert (Hno2 : (∀ el, ¬ modern_entry document el) → modern = ∅).
  { intros Hno. apply set_eq. intros p. rewrite Hin2, elem_of_empty.
    split; [|done]. intros (el & v & Hel & _). by apply (Hno el). }
  split_and!; try done.
  - apply NoDup_elements.
  - intros p. by rewrite elem_of_elements, elem_of_union.
  - intros ->%Hno1. by rewrite (left_id_L ∅ (∪)).
  - intros ->%Hno2. by rewrite (right_id_L ∅ (∪)).
  - intros ->%Hno1 ->%Hno2. by rewrite (left_id_L ∅ (∪)).
Qed.

Lemma recent_paths_union_witness :
  ∃ legacy modern paths : gset PosixPath,
    recent_paths two_layouts = Ok paths ∧
    paths = legacy ∪ modern ∧
    (∀ p, p ∈ legacy ↔
          ∃ el v, legacy_entry two_layouts el ∧ attrib el !! "value" = Some v ∧
                  recorded_as v p) ∧
    (∀ p, p ∈ modern ↔
          ∃ el v, modern_entry two_layouts el ∧ attrib el !! "key" = Some v ∧
                  recorded_as v p) ∧
    NoDup (elements paths) ∧
    (∀ p, p ∈ elements paths ↔ p ∈ legacy ∨ p ∈ modern) ∧
    ((∀ el, ¬ legacy_entry two_layouts el) → paths = modern) ∧
    ((∀ el, ¬ modern_entry two_layouts el) → paths = legacy) ∧
    ((∀ el, ¬ legacy_entry two_layouts el) → (∀ el, ¬ modern_entry two_layouts el) →
     paths = ∅).
Proof.
  refine (recent_paths_union two_layouts _ _).
  - intros e He%findall_legacy.
    change (e ∈ [el "option" [("value", "$USER_HOME$/x")] [];
                 el "option" [("value", "/home/u/y")] []]) in He.
    repeat (apply elem_of_cons in He as [->|He]; [eexists; reflexivity|]).
    by apply elem_of_nil in He.
  - intros e He%findall_modern.
    change (e ∈ [el "entry" [("key", "/home/u/x")] [];
                 el "entry" [("key", "$USER_HOME$/x")] []]) in He.
    repeat (apply elem_of_cons in He as [->|He]; [eexists; reflexivity|]).
    by apply elem_of_nil in He.
Defined.

(** The registry [two_layouts]: [~/x] is recorded in both layouts and is
    walked once. *)
Example recent_paths_two_layouts :
  match recent_paths two_layouts with
  | Ok paths => Some (map path_str (elements paths))
  | Raise _ => None
  end = Some ["/home/u/y"; "/home/u/x"; "~/x"].
Proof. by vm_compute. Qed.

Example str_replace_examples :
  str_replace "$USER_HOME$/Code/app" "$USER_HOME$" "~" = "~/Code/app" ∧
  str_replace "/srv/$USER_HOME$/$USER_HOME$" "$USER_HOME$" "~" = "/srv/~/~" ∧
  str_replace "$USER_$USER_HOME$HOME$" "$USER_HOME$" "~" = "$USER_~HOME$" ∧
  str_replace "/opt/app" "$USER_HOME$" "~" = "/opt/app".
Proof. by repeat split. Qed.

(** * Further properties of the script *)

(** ** Where configuration directories are looked for *)

Lemma find_config_directories_bytes (w : World) (product : ProductInfo) (b : string) :
  environb_XDG_CONFIG_HOME w = Some b → b ≠ "" →
  find_config_directories w product =
    Raise (TypeError
      "argument should be a str object or an os.PathLike object returning str, not <class 'bytes'>").
Proof.
  intros Hb Hne. unfold find_config_directories. rewrite Hb. simpl.
  by rewrite bool_decide_eq_false_2.
Qed.

(** X1.  With a non-empty [XDG_CONFIG_HOME] the value read from
    [os.environb] is [bytes], [Path] refuses it, and no product is looked
    up: the listing raises [TypeError] for every product and the run ends
    in the error envelope with that message and status 1. *)
Theorem xdg_config_home_aborts (w : World) (b : string) :
  environb_XDG_CONFIG_HOME w = Some b → b ≠ "" →
  (∀ product,
     find_latest_recent_projects_file w product =
       Raise (TypeError
         "argument should be a str object or an os.PathLike object returning str, not <class 'bytes'>")) ∧
  main w =
    ([error
        "argument should be a str object or an os.PathLike object returning str, not <class 'bytes'>"
        (format_exc w (TypeError
           "argument should be a str object or an os.PathLike object returning str, not <class 'bytes'>"))],
     1).
Proof.
  intros Hb Hne.
  assert (Hlatest : ∀ product,
    find_latest_recent_projects_file w product =
      Raise (TypeError
        "argument should be a str object or an os.PathLike object returning str, not <class 'bytes'>")).
  { intros product. unfold find_latest_recent_projects_file.
    by rewrite (find_config_directories_bytes w product b Hb Hne). }
  split; [done|].
  apply (main_Raise w (TypeError _)).
  assert (Hrec : ∀ product, recent_projects_of w product =
    Raise (TypeError
      "argument should be a str object or an os.PathLike object returning str, not <class 'bytes'>")).
  { intros product. unfold recent_projects_of. by rewrite Hlatest. }
  unfold find_all_recent_projects, PRODUCTS. cbn [traverse]. rewrite !Hrec.
  reflexivity.
Qed.

Lemma xdg_config_home_aborts_witness :
  (∀ product,
     find_latest_recent_projects_file world_xdg product =
       Raise (TypeError
         "argument should be a str object or an os.PathLike object returning str, not <class 'bytes'>")) ∧
  main world_xdg =
    ([error
        "argument should be a str object or an os.PathLike object returning str, not <class 'bytes'>"
        (format_exc world_xdg (TypeError
           "argument should be a str object or an os.PathLike object returning str, not <class 'bytes'>"))],
     1).
Proof. apply (xdg_config_home_aborts world_xdg "/home/u/.config"); done. Defined.

Lemma Path_home_Ok (w : World) :
  starts_with "~" (os_path_expanduser w "~") = false →
  Path_home w = Ok (Path (os_path_expanduser w "~")).
Proof.
  intros Hhome. unfold Path_home, expanduser.
  change (root (Path "~")) with "". change (parts (Path "~")) with ["~"].
  change (starts_with "~" "~") with true. cbv iota. rewrite Hhome.
  rewrite (right_id_L [] (++)). by destruct (Path _).
Qed.

Lemma Path_home_Raise (w : World) :
  starts_with "~" (os_path_expanduser w "~") = true →
  Path_home w = Raise (RuntimeError "Could not determine home directory.").
Proof.
  intros Hhome. unfold Path_home, expanduser.
  change (root (Path "~")) with "". change (parts (Path "~")) with ["~"].
  change (starts_with "~" "~") with true. cbv iota. by rewrite Hhome.
Qed.

(** X2.  An empty [XDG_CONFIG_HOME] counts as an unset one: the candidates
    of a product are what the glob of its pattern finds in
    [<home>/.config/<base_dir>]; when the home directory is not known the
    listing raises [RuntimeError]. *)
Theorem config_directories_default (w : World) (product : ProductInfo) :
  environb_XDG_CONFIG_HOME w = None ∨ environb_XDG_CONFIG_HOME w = Some "" →
  (starts_with "~" (os_path_expanduser w "~") = false →
   find_config_directories w product =
     Ok (fs_glob w (Path (os_path_expanduser w "~") // ".config" // base_dir product)
           (config_glob product))) ∧
  (starts_with "~" (os_path_expanduser w "~") = true →
   find_config_directories w product =
     Raise (RuntimeError "Could not determine home directory.")).
Proof.
  intros Hxdg.
  assert (default "" (environb_XDG_CONFIG_HOME w) = "") as Hempty
    by (by destruct Hxdg as [->| ->]).
  unfold find_config_directories. rewrite Hempty. simpl. split.
  - intros Hhome. by rewrite (Path_home_Ok w Hhome).
  - intros Hhome. by rewrite (Path_home_Raise w Hhome).
Qed.

Lemma config_directories_default_witness :
  find_config_directories world_three_versions idea =
    Ok (fs_glob world_three_versions
          (Path (os_path_expanduser world_three_versions "~") // ".config" // base_dir idea)
          (config_glob idea)).
Proof.
  refine (proj1 (config_directories_default world_three_versions idea _) _);
    [by left|done].
Defined.

(** ** Which exception a run reports *)

Lemma traverse_first_Raise {A B : Type} (f : A → result B) (pre post : list A) (x : A)
    (e : exn) :
  (∀ a, a ∈ pre → ∃ y, f a = Ok y) → f x = Raise e →
  traverse f (pre ++ x :: post) = Raise e.
Proof.
  intros Hpre Hx. induction pre as [|a pre IH]; simpl.
  - by rewrite Hx.
  - destruct (Hpre a) as [y ->]; [by left|]. simpl.
    rewrite IH; [done|]. intros a' Ha'. apply Hpre. by right.
Qed.

(** X3.  The products are processed in catalog order and the first
    exception ends the run: when every product before [product] succeeds
    and [product] raises [e], the error envelope carries [str(e)] and the
    traceback of [e]. *)
Theorem first_failure_reported (w : World) (pre post : list ProductInfo)
    (product : ProductInfo) (e : exn) :
  PRODUCTS = pre ++ product :: post →
  (∀ q, q ∈ pre → ∃ r, recent_projects_of w q = Ok r) →
  recent_projects_of w product = Raise e →
  main w = ([error (exn_str e) (format_exc w e)], 1).
Proof.
  intros Hcat Hpre He. apply main_Raise. unfold find_all_recent_projects.
  rewrite Hcat. by apply traverse_first_Raise.
Qed.

Lemma first_failure_reported_witness :
  main world_parse_error =
    ([error (exn_str (ParseError "syntax error: line 1, column 0"))
        (format_exc world_parse_error (ParseError "syntax error: line 1, column 0"))], 1).
Proof.
  refine (first_failure_reported world_parse_error [] _ idea _ eq_refl _ eq_refl).
  by intros q Hq%elem_of_nil.
Defined.

(** ** The range of a version *)

Lemma digit_val_range (c : ascii) : is_digit c = true → 0 ≤ digit_val c ≤ 9.
Proof.
  unfold is_digit, digit_val. intros [H1 H2]%andb_true_iff.
  apply N.leb_le in H1, H2. lia.
Qed.

Lemma digits_value_upper (s : string) (acc : Z) :
  all_digits s = true → 0 ≤ acc →
  digits_value acc s ≤ acc * 10 ^ Z.of_nat (String.length s)
                        + (10 ^ Z.of_nat (String.length s) - 1).
Proof.
  revert acc. induction s as [|c s IH]; intros acc Hs Hacc.
  - simpl. lia.
  - simpl in Hs. apply andb_true_iff in Hs as [Hc Hs].
    apply digit_val_range in Hc.
    cbn [digits_value String.length]. rewrite Nat2Z.inj_succ, Z.pow_succ_r by lia.
    specialize (IH (10 * acc + digit_val c) Hs ltac:(lia)).
    assert (0 < 10 ^ Z.of_nat (String.length s)) by (apply Z.pow_pos_nonneg; lia).
    nia.
Qed.

Lemma digits_value_below (s : string) (n : nat) :
  all_digits s = true → (String.length s ≤ n)%nat → digits_value 0 s < 10 ^ Z.of_nat n.
Proof.
  intros Hs Hlen. pose proof (digits_value_upper s 0 Hs ltac:(lia)) as Hup.
  assert (10 ^ Z.of_nat (String.length s) ≤ 10 ^ Z.of_nat n)
    by (apply Z.pow_le_mono_r; lia).
  lia.
Qed.

(** X4.  A version that [product_version] returns is in range: the epoch
    is between 0 and 9999 and the major number between 0 and 99. *)
Theorem product_version_bounds (config_dir : PosixPath) (epoch major : Z) :
  product_version config_dir = Ok (epoch, major) →
  0 ≤ epoch ≤ 9999 ∧ 0 ≤ major ≤ 99.
Proof.
  intros Hv.
  assert (has_version_token (path_name config_dir)) as Htok
    by (apply product_version_Ok_iff; eauto).
  apply product_version_token in Htok
    as (pre & d1 & d2 & post & _ & (H1 & Hl1 & H2 & Hl2) & _ & _ & Hv').
  rewrite Hv in Hv'. injection Hv' as -> ->.
  pose proof (digits_value_nonneg d1 0 H1 ltac:(lia)).
  pose proof (digits_value_nonneg d2 0 H2 ltac:(lia)).
  pose proof (digits_value_below d1 4 H1 ltac:(lia)).
  pose proof (digits_value_below d2 2 H2 ltac:(lia)).
  change (10 ^ Z.of_nat 4) with 10000 in *. change (10 ^ Z.of_nat 2) with 100 in *.
  lia.
Qed.

Lemma product_version_bounds_witness : 0 ≤ 2023 ≤ 9999 ∧ 0 ≤ 1 ≤ 99.
Proof.
  exact (product_version_bounds (Path "/home/u/.config/JetBrains/IntelliJIdea2023.1")
           2023 1 eq_refl).
Defined.

(** ** What the selection returns *)

Lemma max_loop_keys {A : Type} (f : A → result (Z * Z)) (l : list A) (best c : A)
    (best_key : Z * Z) :
  max_loop f best best_key l = Ok c → ∀ x, x ∈ l → ∃ v, f x = Ok v.
Proof.
  revert best best_key. induction l as [|a l IH]; intros best best_key Hmax x Hx.
  - by apply elem_of_nil in Hx.
  - simpl in Hmax. destruct (f a) as [k|] eqn:Hk; [|done]. simpl in Hmax.
    apply elem_of_cons in Hx as [->|Hx]; [eauto|].
    destruct (tuple_gt k best_key); by eapply IH.
Qed.

Lemma py_max_keys {A : Type} (f : A → result (Z * Z)) (l : list A) (r : option A) :
  py_max f l = Ok r → ∀ x, x ∈ l → ∃ v, f x = Ok v.
Proof.
  destruct l as [|a l]; [by intros _ x Hx%elem_of_nil|]. simpl.
  destruct (f a) as [k|] eqn:Hk; [|done]. simpl.
  destruct (max_loop f a k l) as [c|] eqn:Hmax; [|done].
  intros _ x [->|Hx]%elem_of_cons; [eauto|by eapply max_loop_keys].
Qed.

Lemma py_max_Some_inv {A : Type} (f : A → result (Z * Z)) (l : list A) (c : A) :
  py_max f l = Ok (Some c) →
  c ∈ l ∧ (∀ x, x ∈ l → ∃ v, f x = Ok v) ∧
  ∃ v, f c = Ok v ∧ ∀ x v', x ∈ l → f x = Ok v' → version_le v' v.
Proof.
  intros Hmax. pose proof (py_max_keys f l _ Hmax) as Hkeys.
  destruct (py_max_Ok f l) as (c' & v & Hmax' & Hin & Hv & Hle); [by destruct l|done|].
  rewrite Hmax in Hmax'. injection Hmax' as ->. eauto 10.
Qed.

Lemma path_join_component (p : PosixPath) (s : string) :
  Path s = {| root := ""; parts := [s] |} →
  p // s = {| root := root p; parts := parts p ++ [s] |}.
Proof. intros Hs. unfold path_join. by rewrite Hs. Qed.

Lemma path_name_join (p : PosixPath) (s : string) :
  Path s = {| root := ""; parts := [s] |} → path_name (p // s) = s.
Proof.
  intros Hs. rewrite (path_join_component p s Hs). unfold path_name. simpl.
  apply last_last.
Qed.

(** X5.  A file that [find_latest_recent_projects_file] returns exists; it
    is [options/recentSolutions.xml] for Rider and
    [options/recentProjects.xml] for any other product, under a candidate
    directory of maximal version, and every candidate of the product has a
    version. *)
Theorem latest_file_sound (w : World) (product : ProductInfo) (file : PosixPath) :
  find_latest_recent_projects_file w product = Ok (Some file) →
  ∃ dirs config_dir v,
    find_config_directories w product = Ok dirs ∧
    config_dir ∈ dirs ∧
    (∀ d, d ∈ dirs → has_version_token (path_name d)) ∧
    product_version config_dir = Ok v ∧
    (∀ d v', d ∈ dirs → product_version d = Ok v' → version_le v' v) ∧
    fs_exists w file = Ok true ∧
    (key product = "rider" →
     file = config_dir // "options" // "recentSolutions.xml" ∧
     path_name file = "recentSolutions.xml") ∧
    (key product ≠ "rider" →
     file = config_dir // "options" // "recentProjects.xml" ∧
     path_name file = "recentProjects.xml").
Proof.
  unfold find_latest_recent_projects_file.
  destruct (find_config_directories w product) as [dirs|]; [|done]. simpl.
  destruct (py_max product_version dirs) as [[config_dir|]|] eqn:Hmax; [|done..]. simpl.
  destruct (fs_exists w _) as [[]|] eqn:Hex; [|done..]. simpl.
  intros [= <-].
  apply py_max_Some_inv in Hmax as (Hin & Hkeys & v & Hv & Hle).
  exists dirs, config_dir, v. split_and!; try done.
  - intros d Hd. by apply product_version_Ok_iff, Hkeys.
  - intros Hrider. rewrite bool_decide_eq_true_2 by done. split; [done|].
    by apply path_name_join.
  - intros Hother. rewrite bool_decide_eq_false_2 by done. split; [done|].
    by apply path_name_join.
Qed.

Lemma latest_file_sound_witness :
  ∃ dirs config_dir v,
    find_config_directories world_two_layouts idea = Ok dirs ∧
    config_dir ∈ dirs ∧
    (∀ d, d ∈ dirs → has_version_token (path_name d)) ∧
    product_version config_dir = Ok v ∧
    (∀ d v', d ∈ dirs → product_version d = Ok v' → version_le v' v) ∧
    fs_exists world_two_layouts (Path idea_registry) = Ok true ∧
    (key idea = "rider" →
     Path idea_registry = config_dir // "options" // "recentSolutions.xml" ∧
     path_name (Path idea_registry) = "recentSolutions.xml") ∧
    (key idea ≠ "rider" →
     Path idea_registry = config_dir // "options" // "recentProjects.xml" ∧
     path_name (Path idea_registry) = "recentProjects.xml").
Proof. exact (latest_file_sound world_two_layouts idea (Path idea_registry) eq_refl). Defined.

Lemma version_lt_le (a b : Z * Z) : version_lt a b → version_le a b.
Proof. unfold version_lt, version_le. lia. Qed.

Lemma tuple_gt_lt (a b : Z * Z) : tuple_gt a b = true ↔ version_lt b a.
Proof. unfold tuple_gt, version_lt. lia. Qed.

Lemma version_le_lt_trans (a b c : Z * Z) : version_le a b → version_lt b c → version_lt a c.
Proof. unfold version_le, version_lt. lia. Qed.

Lemma version_lt_trans (a b c : Z * Z) : version_lt a b → version_lt b c → version_lt a c.
Proof. unfold version_lt. lia. Qed.

Lemma max_loop_first {A : Type} (f : A → result (Z * Z)) (l : list A) (best c : A)
    (best_key : Z * Z) :
  max_loop f best best_key l = Ok c →
  (c = best ∧ ∀ x v', x ∈ l → f x = Ok v' → version_le v' best_key) ∨
  (∃ pre post v,
     l = pre ++ c :: post ∧ f c = Ok v ∧ version_lt best_key v ∧
     (∀ x v', x ∈ pre → f x = Ok v' → version_lt v' v) ∧
     (∀ x v', x ∈ post → f x = Ok v' → version_le v' v)).
Proof.
  revert best best_key. induction l as [|a l IH]; intros best best_key; simpl.
  - intros [= <-]. left. split; [done|]. by intros x v' Hx%elem_of_nil.
  - destruct (f a) as [k|] eqn:Hk; [|done]. simpl.
    destruct (tuple_gt k best_key) eqn:Hgt; intros Hmax.
    + apply tuple_gt_lt in Hgt. right.
      destruct (IH a k Hmax) as [[-> Hall]|(pre & post & v & -> & Hv & Hlt & Hpre & Hpost)].
      * exists [], l, k. split_and!; try done. by intros x v' Hx%elem_of_nil.
      * exists (a :: pre), post, v. split_and!; try done.
        -- by eapply version_lt_trans.
        -- intros x v' [->|Hx]%elem_of_cons Hx'; [|by eapply Hpre].
           by assert (v' = k) as -> by congruence.
    + apply tuple_gt_false in Hgt.
      destruct (IH best best_key Hmax)
        as [[-> Hall]|(pre & post & v & -> & Hv & Hlt & Hpre & Hpost)].
      * left. split; [done|]. intros x v' [->|Hx]%elem_of_cons Hx'; [|by eapply Hall].
        by assert (v' = k) as -> by congruence.
      * right. exists (a :: pre), post, v. split_and!; try done.
        intros x v' [->|Hx]%elem_of_cons Hx'; [|by eapply Hpre].
        assert (v' = k) as -> by congruence. by eapply version_le_lt_trans.
Qed.

(** X6.  Among candidates of equal maximal version the one listed first is
    selected: every candidate before the selected one has a strictly smaller
    version, every candidate after it a smaller or equal one. *)
Theorem latest_tie_goes_to_first (dirs : list PosixPath) (config_dir : PosixPath) :
  py_max product_version dirs = Ok (Some config_dir) →
  ∃ pre post v,
    dirs = pre ++ config_dir :: post ∧
    product_version config_dir = Ok v ∧
    (∀ d v', d ∈ pre → product_version d = Ok v' → version_lt v' v) ∧
    (∀ d v', d ∈ post → product_version d = Ok v' → version_le v' v).
Proof.
  destruct dirs as [|a dirs]; [done|]. simpl.
  destruct (product_version a) as [k|] eqn:Hk; [|done]. simpl.
  destruct (max_loop product_version a k dirs) as [c|] eqn:Hmax; [|done]. simpl.
  intros [= ->].
  destruct (max_loop_first _ _ _ _ _ Hmax)
    as [[-> Hall]|(pre & post & v & -> & Hv & Hlt & Hpre & Hpost)].
  - exists [], dirs, k. split_and!; try done. by intros d v' Hd%elem_of_nil.
  - exists (a :: pre), post, v. split_and!; try done.
    intros d v' [->|Hd]%elem_of_cons Hd'; [|by eapply Hpre].
    by assert (v' = k) as -> by congruence.
Qed.

Lemma latest_tie_goes_to_first_witness :
  ∃ pre post v,
    same_version_dirs = pre ++ Path "/a/IntelliJIdea2023.3" :: post ∧
    product_version (Path "/a/IntelliJIdea2023.3") = Ok v ∧
    (∀ d v', d ∈ pre → product_version d = Ok v' → version_lt v' v) ∧
    (∀ d v', d ∈ post → product_version d = Ok v' → version_le v' v).
Proof.
  exact (latest_tie_goes_to_first same_version_dirs (Path "/a/IntelliJIdea2023.3") eq_refl).
Defined.

(** ** The projects of one registry *)

Lemma yield_projects_spec (w : World) (product : ProductInfo) (paths : list PosixPath)
    (projects : list Project) :
  yield_projects w product paths = Ok projects →
  (∀ p, p ∈ projects ↔
        ∃ recorded expanded,
          recorded ∈ paths ∧ expanduser w recorded = Ok expanded ∧
          fs_exists w expanded = Ok true ∧ get_project w product recorded = Ok p) ∧
  (length projects ≤ length paths)%nat.
Proof.
  revert projects. induction paths as [|a paths IH]; intros projects; simpl.
  - intros [= <-]. split; [|done]. intros p. split; [by intros ?%elem_of_nil|].
    by intros (r & e & ?%elem_of_nil & _).
  - destruct (expanduser w a) as [ea|] eqn:Hea; [|done]. simpl.
    destruct (fs_exists w ea) as [[]|] eqn:Hex; [| |done]; simpl.
    + destruct (get_project w product a) as [pa|] eqn:Hpa; [|done]. simpl.
      destruct (yield_projects w product paths) as [rest|]; [|done]. simpl.
      intros [= <-]. destruct (IH rest eq_refl) as [Hin Hlen]. split; [|simpl; lia].
      intros p. rewrite elem_of_cons, Hin. split.
      * intros [->|(r & e & Hr & He & Hx & Hp)].
        -- exists a, ea. split_and!; [by left|done..].
        -- exists r, e. split_and!; [by right|done..].
      * intros (r & e & [->|Hr]%elem_of_cons & He & Hx & Hp).
        -- left. congruence.
        -- right. by exists r, e.
    + intros Hrest. destruct (IH projects Hrest) as [Hin Hlen]. split; [|lia].
      intros p. rewrite Hin. split.
      * intros (r & e & Hr & He & Hx & Hp). exists r, e. split_and!; [by right|done..].
      * intros (r & e & [->|Hr]%elem_of_cons & He & Hx & Hp); [congruence|].
        by exists r, e.
Qed.

Lemma find_recent_projects_inv (w : World) (product : ProductInfo) (file : PosixPath)
    (projects : list Project) :
  find_recent_projects w product file = Ok projects →
  ∃ document paths,
    etree_parse w file = Ok document ∧ recent_paths document = Ok paths ∧
    (∀ p, p ∈ projects ↔
          ∃ recorded expanded,
            recorded ∈ paths ∧ expanduser w recorded = Ok expanded ∧
            fs_exists w expanded = Ok true ∧ get_project w product recorded = Ok p) ∧
    (length projects ≤ length (elements paths))%nat.
Proof.
  unfold find_recent_projects.
  destruct (etree_parse w file) as [document|] eqn:Hdoc; [|done]. simpl.
  destruct (recent_paths document) as [paths|] eqn:Hpaths; [|done]. simpl.
  intros [Hin Hlen]%yield_projects_spec. exists document, paths.
  split_and!; [done..| |done].
  intros p. rewrite Hin. by setoid_rewrite elem_of_elements.
Qed.

(** X7.  The projects returned for a registry file are the records of the
    recorded paths whose expansion exists, and of no other path; there are
    at most as many as recorded paths. *)
Theorem recent_projects_existing (w : World) (product : ProductInfo) (file : PosixPath)
    (projects : list Project) :
  find_recent_projects w product file = Ok projects →
  ∃ document paths,
    etree_parse w file = Ok document ∧ recent_paths document = Ok paths ∧
    (∀ p, p ∈ projects ↔
          ∃ recorded expanded,
            recorded ∈ paths ∧ expanduser w recorded = Ok expanded ∧
            fs_exists w expanded = Ok true ∧ get_project w product recorded = Ok p) ∧
    (length projects ≤ length (elements paths))%nat.
Proof. apply find_recent_projects_inv. Qed.

Lemma recent_projects_existing_witness :
  ∃ document paths,
    etree_parse world_two_layouts (Path idea_registry) = Ok document ∧
    recent_paths document = Ok paths ∧
    (∀ p, p ∈ [record_x; record_home_x] ↔
          ∃ recorded expanded,
            recorded ∈ paths ∧ expanduser world_two_layouts recorded = Ok expanded ∧
            fs_exists world_two_layouts expanded = Ok true ∧
            get_project world_two_layouts idea recorded = Ok p) ∧
    (length [record_x; record_home_x] ≤ length (elements paths))%nat.
Proof.
  refine (recent_projects_existing world_two_layouts idea (Path idea_registry)
            [record_x; record_home_x] _).
  by vm_compute.
Defined.

Lemma traverse_Ok_elem {A B : Type} (f : A → result B) (l : list A) (ys : list B) (y : B) :
  traverse f l = Ok ys → y ∈ ys → ∃ x, x ∈ l ∧ f x = Ok y.
Proof.
  revert ys. induction l as [|a l IH]; intros ys; simpl.
  - by intros [= <-] ?%elem_of_nil.
  - destruct (f a) as [b|] eqn:Hfa; [|done]. simpl.
    destruct (traverse f l) as [ys'|]; [|done]. simpl.
    intros [= <-] [->|Hy]%elem_of_cons.
    + exists a. split; [by left|done].
    + destruct (IH ys' eq_refl Hy) as (x & Hx & Hfx). exists x. split; [by right|done].
Qed.

(** X8.  Every record in the payload of a successful run stands under the
    key of a catalog product, belongs to a recorded path whose expansion
    exists, and has the form the consumer relies on: [path] is the path as
    recorded, [abspath] its expansion, and [id] is
    [jetbrains-search-provider-<key>-<abspath>]. *)
Theorem payload_records (w : World) (projects : list (string * list Project)) (st : Z)
    (k : string) (ps : list Project) (p : Project) :
  main w = ([success projects], st) →
  (k, ps) ∈ projects → p ∈ ps →
  ∃ product recorded expanded,
    product ∈ PRODUCTS ∧ key product = k ∧
    expanduser w recorded = Ok expanded ∧ fs_exists w expanded = Ok true ∧
    path p = path_str recorded ∧ abspath p = path_str expanded ∧
    id p = "jetbrains-search-provider-" +:+ k +:+ "-" +:+ abspath p.
Proof.
  intros [Hall _]%main_success_inv Hk Hp.
  destruct (traverse_Ok_elem _ _ _ _ Hall Hk) as (product & Hin & Hrec).
  unfold recent_projects_of in Hrec.
  destruct (find_latest_recent_projects_file w product) as [[file|]|]; simpl in Hrec;
    [| |done].
  - destruct (find_recent_projects w product file) as [ps'|] eqn:Hps; simpl in Hrec; [|done].
    injection Hrec as <- <-.
    apply find_recent_projects_inv in Hps as (document & paths & _ & _ & Hps & _).
    apply Hps in Hp as (recorded & expanded & _ & Hexp & Hex & Hget).
    apply get_project_fields in Hget as (expanded' & Hexp' & Hid & Hpath & Habs).
    assert (expanded' = expanded) as -> by congruence.
    exists product, recorded, expanded. split_and!; try done. by rewrite Habs.
  - injection Hrec as <- <-. by apply elem_of_nil in Hp.
Qed.

Lemma payload_records_witness :
  ∃ product recorded expanded,
    product ∈ PRODUCTS ∧ key product = "idea" ∧
    expanduser world_two_layouts recorded = Ok expanded ∧
    fs_exists world_two_layouts expanded = Ok true ∧
    path record_home_x = path_str recorded ∧
    abspath record_home_x = path_str expanded ∧
    id record_home_x =
      "jetbrains-search-provider-" +:+ "idea" +:+ "-" +:+ abspath record_home_x.
Proof.
  refine (payload_records world_two_layouts two_layouts_payload 0 "idea"
            [record_x; record_home_x] record_home_x _ _ _).
  - by vm_compute.
  - by left.
  - right. by left.
Defined.

Lemma nil_of_no_elem {A : Type} (l : list A) : (∀ x, x ∉ l) → l = [].
Proof. destruct l as [|a l]; [done|]. intros H. destruct (H a). by left. Qed.

(** X9.  A registry document in which neither layout has an entry gives the
    empty list of projects, not an error, whatever the file system holds. *)
Theorem registry_without_entries (w : World) (product : ProductInfo) (file : PosixPath)
    (document : Element) :
  etree_parse w file = Ok document →
  (∀ el, ¬ legacy_entry document el) →
  (∀ el, ¬ modern_entry document el) →
  find_recent_projects w product file = Ok [] ∧
  (find_latest_recent_projects_file w product = Ok (Some file) →
   recent_projects_of w product = Ok (key product, [])).
Proof.
  intros Hdoc Hlegacy Hmodern.
  assert (find_recent_projects w product file = Ok []) as Hnone.
  { unfold find_recent_projects, recent_paths. rewrite Hdoc. simpl.
    rewrite (nil_of_no_elem (findall document legacy_selector))
      by (intros el Hel%findall_legacy; by eapply Hlegacy).
    rewrite (nil_of_no_elem (findall document modern_selector))
      by (intros el Hel%findall_modern; by eapply Hmodern).
    simpl. rewrite (left_id_L ∅ (∪)), elements_empty. done. }
  split; [done|]. intros Hfile. unfold recent_projects_of. rewrite Hfile. simpl.
  by rewrite Hnone.
Qed.

Lemma registry_without_entries_witness :
  find_recent_projects world_no_entries idea (Path idea_registry) = Ok [] ∧
  (find_latest_recent_projects_file world_no_entries idea = Ok (Some (Path idea_registry)) →
   recent_projects_of world_no_entries idea = Ok (key idea, [])).
Proof.
  refine (registry_without_entries world_no_entries idea (Path idea_registry) no_entries
            eq_refl _ _).
  - by intros e He%findall_legacy%elem_of_nil.
  - by intros e He%findall_modern%elem_of_nil.
Defined.

(** ** The home token *)

Lemma starts_with_after_replace (q old : string) (n : ascii) (s : string) :
  str_mem n q = false →
  starts_with q (str_replace s old (String n "")) = true → starts_with q s = true.
Proof.
  revert s. induction q as [|a q IH]; intros s Hq; [done|].
  simpl in Hq. apply orb_false_iff in Hq as [Han Hq].
  apply bool_decide_eq_false in Han.
  destruct s as [|c s]; [done|].
  destruct (starts_with old (String c s)) eqn:Hstart.
  - apply starts_with_inv in Hstart as [s' Hs']. rewrite Hs'.
    destruct (decide (old = "")) as [->|Hold].
    + rewrite app_nil_l in Hs'. subst s'. unfold str_replace. simpl.
      by rewrite decide_False.
    + rewrite str_replace_hit by done. rewrite app_cons, app_nil_l. simpl.
      by rewrite decide_False.
  - rewrite str_replace_skip by done. simpl.
    destruct (decide (a = c)) as [->|]; [|done]. by apply IH.
Qed.

Lemma replaced_no_occurrence (old : string) (n : ascii) (s t : string) :
  old ≠ "" → str_mem n old = false →
  replaced old (String n "") s t → occurs old t = false.
Proof.
  intros Hold Hn. induction 1 as [|s t Hrep IH|c s t Hno Hrep IH].
  - destruct old; [done|]. done.
  - rewrite app_cons, app_nil_l. cbn [occurs]. rewrite IH, orb_false_r.
    destruct old as [|a old]; [done|]. simpl in Hn. simpl.
    apply orb_false_iff in Hn as [Han _]. apply bool_decide_eq_false in Han.
    by rewrite decide_False.
  - cbn [occurs]. rewrite IH, orb_false_r.
    destruct (starts_with old (String c t)) eqn:Hstart; [|done].
    apply str_replace_spec in Hrep; [|done]. subst t.
    rewrite <- (str_replace_skip old (String n "") c s Hno) in Hstart.
    apply starts_with_after_replace in Hstart; [congruence|done].
Qed.

Lemma str_replace_absent (old new s : string) :
  occurs old s = false → str_replace s old new = s.
Proof.
  induction s as [|c s IH]; [done|]. cbn [occurs].
  intros [Hstart Hrest]%orb_false_iff.
  rewrite str_replace_skip by done. by rewrite IH.
Qed.

(** X10.  A path recorded from an attribute value has no [$USER_HOME$]
    left in its string, and a value without the token is recorded
    unchanged. *)
Theorem recorded_path_token_free (k : string) (el : Element) (p : PosixPath) :
  recorded_path k el = Ok p →
  ∃ v t,
    attrib el !! k = Some v ∧ p = Path t ∧
    replaced "$USER_HOME$" "~" v t ∧
    occurs "$USER_HOME$" t = false ∧
    (occurs "$USER_HOME$" v = false → t = v).
Proof.
  unfold recorded_path, attrib_get.
  destruct (attrib el !! k) as [v|]; [|done]. simpl. intros [= <-].
  exists v, (str_replace v "$USER_HOME$" "~").
  assert (replaced "$USER_HOME$" "~" v (str_replace v "$USER_HOME$" "~")) as Hrep
    by (by apply str_replace_spec).
  split_and!; try done.
  - by apply (replaced_no_occurrence "$USER_HOME$" "~" v _).
  - apply str_replace_absent.
Qed.

Lemma recorded_path_token_free_witness :
  ∃ v t,
    attrib (el "option" [("value", "$USER_HOME$/x")] []) !! "value" = Some v ∧
    Path "~/x" = Path t ∧
    replaced "$USER_HOME$" "~" v t ∧
    occurs "$USER_HOME$" t = false ∧
    (occurs "$USER_HOME$" v = false → t = v).
Proof.
  exact (recorded_path_token_free "value" (el "option" [("value", "$USER_HOME$/x")] [])
           (Path "~/x") eq_refl).
Defined.

(** ** Expansion of the home directory *)

Lemma expanduser_unchanged (w : World) (p : PosixPath) :
  (root p ≠ "" ∨ ∀ first rest, parts p = first :: rest → starts_with "~" first = false) →
  expanduser w p = Ok p.
Proof.
  unfold expanduser. intros [Hroot|Hfirst].
  - by destruct (root p).
  - destruct (root p); [|done]. destruct (parts p) as [|first rest]; [done|].
    by rewrite (Hfirst first rest eq_refl).
Qed.

Lemma expanduser_home (w : World) (p expanded : PosixPath) (first : string)
    (rest : list string) :
  root p = "" → parts p = first :: rest → starts_with "~" first = true →
  expanduser w p = Ok expanded →
  starts_with "~" (os_path_expanduser w first) = false ∧
  expanded = {| root := root (Path (os_path_expanduser w first));
                parts := parts (Path (os_path_expanduser w first)) ++ rest |}.
Proof.
  unfold expanduser. intros -> -> ->.
  destruct (starts_with "~" (os_path_expanduser w first)); [done|].
  by intros [= <-].
Qed.

(** X11.  Only a leading [~] component is expanded.  For a recorded path
    that is absolute, or whose first component does not start with [~], the
    record has [abspath] equal to [path]; for a path that starts with a [~]
    component, [abspath] is the home directory the system gives for that
    component followed by the remaining components. *)
Theorem abspath_of_record (w : World) (product : ProductInfo) (recorded : PosixPath)
    (p : Project) :
  get_project w product recorded = Ok p →
  ((root recorded ≠ "" ∨
    ∀ first rest, parts recorded = first :: rest → starts_with "~" first = false) →
   abspath p = path p) ∧
  (∀ first rest,
     root recorded = "" → parts recorded = first :: rest → starts_with "~" first = true →
     starts_with "~" (os_path_expanduser w first) = false ∧
     abspath p =
       path_str {| root := root (Path (os_path_expanduser w first));
                   parts := parts (Path (os_path_expanduser w first)) ++ rest |}).
Proof.
  intros (expanded & Hexp & _ & Hpath & Habs)%get_project_fields. split.
  - intros Hplain. rewrite (expanduser_unchanged w recorded Hplain) in Hexp.
    injection Hexp as <-. by rewrite Hpath.
  - intros first rest Hroot Hparts Hfirst.
    destruct (expanduser_home w recorded expanded first rest Hroot Hparts Hfirst Hexp)
      as [Hhome ->].
    by rewrite Habs.
Qed.

Lemma abspath_of_record_witness :
  ((root (Path "~/x") ≠ "" ∨
    ∀ first rest, parts (Path "~/x") = first :: rest → starts_with "~" first = false) →
   abspath record_home_x = path record_home_x) ∧
  (∀ first rest,
     root (Path "~/x") = "" → parts (Path "~/x") = first :: rest →
     starts_with "~" first = true →
     starts_with "~" (os_path_expanduser world_two_layouts first) = false ∧
     abspath record_home_x =
       path_str {| root := root (Path (os_path_expanduser world_two_layouts first));
                   parts := parts (Path (os_path_expanduser world_two_layouts first))
                            ++ rest |}).
Proof.
  refine (abspath_of_record world_two_layouts idea (Path "~/x") record_home_x _).
  by vm_compute.
Defined.

(** ** When a registry is processed without error *)

Lemma yield_projects_Ok_iff (w : World) (product : ProductInfo) (paths : list PosixPath) :
  (∃ projects, yield_projects w product paths = Ok projects) ↔
  ∀ recorded, recorded ∈ paths →
    ∃ expanded found,
      expanduser w recorded = Ok expanded ∧ fs_exists w expanded = Ok found ∧
      (found = true → ∃ p, get_project w product recorded = Ok p).
Proof.
  induction paths as [|a paths IH]; simpl.
  - split; [by intros _ r Hr%elem_of_nil|eauto].
  - split.
    + intros [projects Hok] r Hr.
      destruct (expanduser w a) as [ea|] eqn:Hea; [|done]. simpl in Hok.
      destruct (fs_exists w ea) as [found|] eqn:Hex; [|done]. simpl in Hok.
      assert (∃ ps, yield_projects w product paths = Ok ps) as Hrest.
      { destruct found; [|eauto].
        destruct (get_project w product a); [|done]. simpl in Hok.
        destruct (yield_projects w product paths); [eauto|done]. }
      apply elem_of_cons in Hr as [->|Hr]; [|by apply IH].
      exists ea, found. split_and!; [done..|]. intros ->.
      destruct (get_project w product a); [eauto|done].
    + intros Hall.
      destruct (Hall a) as (ea & found & Hea & Hex & Hget); [by left|].
      rewrite Hea. simpl. rewrite Hex. simpl.
      destruct (proj2 IH) as [ps Hps]; [intros r Hr; apply Hall; by right|].
      rewrite Hps. destruct found; [|eauto].
      destruct (Hget eq_refl) as [p ->]. simpl. eauto.
Qed.

(** X12.  A registry file is processed without error exactly when it
    parses, every selected element has its attribute, and for every
    recorded path the expansion and the existence test do not raise and,
    if the path exists, the resolver does not raise.  What the resolver
    would do for a path that does not exist plays no role. *)
Theorem find_recent_projects_Ok_iff (w : World) (product : ProductInfo) (file : PosixPath) :
  (∃ projects, find_recent_projects w product file = Ok projects) ↔
  ∃ document paths,
    etree_parse w file = Ok document ∧ recent_paths document = Ok paths ∧
    ∀ recorded, recorded ∈ paths →
      ∃ expanded found,
        expanduser w recorded = Ok expanded ∧ fs_exists w expanded = Ok found ∧
        (found = true → ∃ p, get_project w product recorded = Ok p).
Proof.
  unfold find_recent_projects. split.
  - intros [projects Hok].
    destruct (etree_parse w file) as [document|] eqn:Hdoc; [|done]. simpl in Hok.
    destruct (recent_paths document) as [paths|] eqn:Hpaths; [|done]. simpl in Hok.
    exists document, paths. split_and!; [done..|].
    intros recorded Hr%elem_of_elements.
    by apply (proj1 (yield_projects_Ok_iff w product (elements paths))); [eauto|].
  - intros (document & paths & -> & Hpaths & Hall). simpl. rewrite Hpaths. simpl.
    apply yield_projects_Ok_iff. intros recorded Hr%elem_of_elements. by apply Hall.
Qed.

Lemma find_recent_projects_Ok_iff_witness :
  ∃ document paths,
    etree_parse world_two_layouts (Path idea_registry) = Ok document ∧
    recent_paths document = Ok paths ∧
    ∀ recorded, recorded ∈ paths →
      ∃ expanded found,
        expanduser world_two_layouts recorded = Ok expanded ∧
        fs_exists world_two_layouts expanded = Ok found ∧
        (found = true → ∃ p, get_project world_two_layouts idea recorded = Ok p).
Proof.
  refine (proj1 (find_recent_projects_Ok_iff world_two_layouts idea (Path idea_registry)) _).
  exists [record_x; record_home_x]. by vm_compute.
Defined.

(** ** Paths and their strings *)

Lemma str_split_absent (c : ascii) (s : string) :
  str_mem c s = false → str_split c s = [s].
Proof.
  induction s as [|a s IH]; [done|]. simpl.
  intros [Ha Hs]%orb_false_iff. apply bool_decide_eq_false in Ha.
  rewrite decide_False by done. by rewrite (IH Hs).
Qed.

Lemma str_split_app (c : ascii) (x rest : string) :
  str_mem c x = false → str_split c (x +:+ String c rest) = x :: str_split c rest.
Proof.
  induction x as [|a x IH]; intros Hx.
  - rewrite app_nil_l. simpl. by rewrite decide_True.
  - simpl in Hx. apply orb_false_iff in Hx as [Ha Hx]. apply bool_decide_eq_false in Ha.
    rewrite app_cons. simpl. rewrite decide_False by done. by rewrite (IH Hx).
Qed.

Lemma str_split_parts (c : ascii) (s : string) :
  Forall (λ x, str_mem c x = false) (str_split c s).
Proof.
  induction s as [|a s IH]; simpl.
  - by repeat constructor.
  - destruct (decide (a = c)) as [->|Hac]; [by constructor|].
    destruct (str_split c s) as [|x l]; constructor; simpl.
    + by rewrite bool_decide_eq_false_2.
    + constructor.
    + rewrite bool_decide_eq_false_2 by done. by inversion IH.
    + by inversion IH.
Qed.

Lemma is_component_true (x : string) :
  str_mem "/" x = false → is_component x = true → component x.
Proof.
  unfold is_component, component. intros Hx [H1 H2]%andb_true_iff.
  apply negb_true_iff, bool_decide_eq_false in H1, H2. done.
Qed.

Lemma component_is_component (x : string) : component x → is_component x = true.
Proof.
  unfold is_component, component. intros (H1 & H2 & _).
  by rewrite !bool_decide_eq_false_2.
Qed.

(** [Path] builds well-formed paths. *)
Lemma Path_well_formed (s : string) : well_formed (Path s).
Proof.
  split.
  - simpl. unfold split_root. destruct (leading_slashes s) as [|[|[|n]]]; auto.
  - simpl. apply Forall_forall. intros x [Hc Hx]%list_elem_of_filter.
    apply is_component_true; [|done].
    by apply (proj1 (Forall_forall _ _) (str_split_parts "/" s)).
Qed.

Lemma filter_components (l : list string) :
  Forall component l → filter (λ x, is_component x = true) l = l.
Proof.
  induction 1 as [|x l Hx _ IH]; [done|].
  rewrite filter_cons_True by (by apply component_is_component). by rewrite IH.
Qed.

Lemma str_split_join (l : list string) :
  Forall component l → l ≠ [] → str_split "/" (str_join "/" l) = l.
Proof.
  induction 1 as [|x l (_ & _ & Hx) Hl IH]; [done|]. intros _.
  destruct l as [|y l]; [by apply str_split_absent|].
  change (str_join "/" (x :: y :: l)) with (x +:+ "/" +:+ str_join "/" (y :: l)).
  rewrite app_cons, app_nil_l. rewrite (str_split_app "/" x _ Hx).
  by rewrite IH.
Qed.

Lemma leading_slashes_other (a : ascii) (s : string) :
  a ≠ "/"%char → leading_slashes (String a s) = 0%nat.
Proof.
  intros Ha. destruct a as [[] [] [] [] [] [] [] []]; try done.
Qed.

Lemma leading_slashes_join (l : list string) :
  Forall component l → leading_slashes (str_join "/" l) = 0%nat.
Proof.
  destruct 1 as [|x l (Hne & _ & Hx) _]; [done|].
  destruct x as [|a x]; [done|]. simpl in Hx.
  apply orb_false_iff in Hx as [Ha _]. apply bool_decide_eq_false in Ha.
  destruct l; simpl; [|rewrite app_cons]; by apply leading_slashes_other.
Qed.

Lemma split_join_filtered (l : list string) :
  Forall component l →
  filter (λ x, is_component x = true) (str_split "/" (str_join "/" l)) = l.
Proof.
  intros Hl. destruct l as [|x l]; [done|].
  rewrite str_split_join by done. by apply filter_components.
Qed.

(** Parsing the string of a well-formed path gives the path back. *)
Lemma Path_of_str (p : PosixPath) : well_formed p → Path (path_str p) = p.
Proof.
  destruct p as [r ps]. intros [Hroot Hparts]. cbn [root parts] in *.
  pose proof (leading_slashes_join ps Hparts) as Hlead.
  pose proof (split_join_filtered ps Hparts) as Hsplit.
  unfold path_str, Path. cbn [root parts].
  destruct Hroot as [->|[->| ->]].
  - destruct ps as [|x ps]; [done|]. rewrite app_nil_l.
    unfold split_root. by rewrite Hlead, Hsplit.
  - rewrite app_cons, app_nil_l. unfold split_root. cbn [leading_slashes].
    rewrite Hlead. cbn [str_split]. rewrite decide_True by done.
    rewrite filter_cons_False by done. by rewrite Hsplit.
  - rewrite !app_cons, app_nil_l. unfold split_root. cbn [leading_slashes].
    rewrite Hlead. cbn [str_split]. rewrite !decide_True by done.
    rewrite !filter_cons_False by done. by rewrite Hsplit.
Qed.

Lemma path_str_inj (p q : PosixPath) :
  well_formed p → well_formed q → path_str p = path_str q → p = q.
Proof.
  intros Hp Hq Heq. rewrite <- (Path_of_str p Hp), <- (Path_of_str q Hq). by rewrite Heq.
Qed.

Lemma recorded_path_well_formed (k : string) (el : Element) (p : PosixPath) :
  recorded_path k el = Ok p → well_formed p.
Proof.
  unfold recorded_path. destruct (attrib_get el k); simpl; [|done].
  intros [= <-]. apply Path_well_formed.
Qed.

Lemma recent_paths_well_formed (document : Element) (paths : gset PosixPath)
    (p : PosixPath) :
  recent_paths document = Ok paths → p ∈ paths → well_formed p.
Proof.
  unfold recent_paths.
  destruct (traverse (recorded_path "value") _) as [l1|] eqn:H1; [|done]. simpl.
  destruct (traverse (recorded_path "key") _) as [l2|] eqn:H2; [|done]. simpl.
  intros [= <-] [Hp|Hp]%elem_of_union; apply elem_of_list_to_set in Hp.
  - destruct (traverse_Ok_elem _ _ _ _ H1 Hp) as (e & _ & He).
    by eapply recorded_path_well_formed.
  - destruct (traverse_Ok_elem _ _ _ _ H2 Hp) as (e & _ & He).
    by eapply recorded_path_well_formed.
Qed.

Lemma yield_projects_paths (w : World) (product : ProductInfo) (paths : list PosixPath)
    (projects : list Project) :
  yield_projects w product paths = Ok projects →
  sublist (map path projects) (map path_str paths).
Proof.
  revert projects. induction paths as [|a paths IH]; intros projects; simpl.
  - intros [= <-]. constructor.
  - destruct (expanduser w a) as [ea|]; [|done]. simpl.
    destruct (fs_exists w ea) as [[]|]; [| |done]; simpl.
    + destruct (get_project w product a) as [pa|] eqn:Hpa; [|done]. simpl.
      destruct (yield_projects w product paths) as [rest|]; [|done]. simpl.
      intros [= <-]. simpl.
      apply get_project_fields in Hpa as (e & _ & _ & -> & _).
      apply sublist_skip. by apply IH.
    + intros Hrest. apply sublist_cons. by apply IH.
Qed.

Lemma NoDup_map_inj {A B : Type} (f : A → B) (l : list A) :
  (∀ x y, x ∈ l → y ∈ l → f x = f y → x = y) → NoDup l → NoDup (map f l).
Proof.
  intros Hinj. induction 1 as [|a l Ha Hl IH]; [constructor|]. simpl. constructor.
  - intros (x & Hax & Hx)%(list_elem_of_fmap f). apply Ha.
    rewrite (Hinj a x); [done|by left|by right|done].
  - apply IH. intros x y Hx Hy. apply Hinj; by right.
Qed.

Lemma find_recent_projects_NoDup (w : World) (product : ProductInfo) (file : PosixPath)
    (projects : list Project) :
  find_recent_projects w product file = Ok projects → NoDup (map path projects).
Proof.
  unfold find_recent_projects.
  destruct (etree_parse w file) as [document|]; [|done]. simpl.
  destruct (recent_paths document) as [paths|] eqn:Hpaths; [|done]. simpl.
  intros Hsub%yield_projects_paths. eapply sublist_NoDup; [|done].
  apply NoDup_map_inj; [|apply NoDup_elements].
  intros x y Hx%elem_of_elements Hy%elem_of_elements.
  apply path_str_inj; by eapply recent_paths_well_formed.
Qed.

(** X13.  In the payload of a successful run the records of one product
    have pairwise different [path] fields: a recorded path gives at most
    one record, also when both layouts record it. *)
Theorem payload_paths_distinct (w : World) (projects : list (string * list Project))
    (st : Z) (k : string) (ps : list Project) :
  main w = ([success projects], st) → (k, ps) ∈ projects → NoDup (map path ps).
Proof.
  intros [Hall _]%main_success_inv Hk.
  destruct (traverse_Ok_elem _ _ _ _ Hall Hk) as (product & Hin & Hrec).
  unfold recent_projects_of in Hrec.
  destruct (find_latest_recent_projects_file w product) as [[file|]|]; simpl in Hrec;
    [| |done].
  - destruct (find_recent_projects w product file) as [ps'|] eqn:Hps; simpl in Hrec; [|done].
    injection Hrec as <- <-. by eapply find_recent_projects_NoDup.
  - injection Hrec as <- <-. constructor.
Qed.

Lemma payload_paths_distinct_witness : NoDup (map path [record_x; record_home_x]).
Proof.
  refine (payload_paths_distinct world_two_layouts two_layouts_payload 0 "idea"
            [record_x; record_home_x] _ _).
  - by vm_compute.
  - by left.
Defined.

(** ** A marker without a name *)




